(** * Opening practice: deck building, review selection, grading and stats

    A shallow embedding of [src/features/files/utils/opening.ts] and of the
    seed-if-empty effect of [src/components/panels/practice/PracticePanel.tsx],
    with the properties of the practice deck proved over it; then of the
    panel's other handlers (reset, skip, the position memo, [newPractice]
    and its animation) with further properties.

    Conventions.
    - A JavaScript [Date] is its millisecond timestamp, a [Z].  Every
      [new Date()] of the source is an explicit clock reading, also the
      one taken inside [createEmptyCard()].
    - [Math.random()] is an explicit rational argument.
    - A thrown exception is the [Throw] branch of [Result].
    - The jotai setter [setDeck] acts on a [Store] that remembers every
      state it has published. *)

From Stdlib Require Import ZArith QArith Qround.
From Stdlib Require Import Ascii.
From stdpp Require Import base option list strings.
From stdpp Require Import gmap.

Local Open Scope Z_scope.

(** ** JavaScript values and exceptions *)

Inductive JsError : Type :=
  | TypeError.

Inductive Result (A : Type) : Type :=
  | Ok (a : A)
  | Throw (e : JsError).
Arguments Ok {A} a.
Arguments Throw {A} e.

(** What an expression of declared type [T | null] can evaluate to at run
    time: a value, [null], or (through an out-of-range index) [undefined]. *)
Inductive Nullable (A : Type) : Type :=
  | JsValue (a : A)
  | JsNull
  | JsUndefined.
Arguments JsValue {A} a.
Arguments JsNull {A}.
Arguments JsUndefined {A}.

(** [arr[i]] for a number [i]: [None] is JavaScript's [undefined]. *)
Definition js_index {A : Type} (arr : list A) (i : Z) : option A :=
  if 0 <=? i then arr !! Z.to_nat i else None.

(** ** The scheduling engine (ts-fsrs), an external collaborator *)

Module Fsrs.

(** The four grades that key the object returned by [f.repeat]. *)
Inductive Grade : Type := Again | Hard | Good | Easy.

(** [schedulingCards[grade]]: the object has the keys 1, 2, 3 and 4 only;
    any other number reads [undefined]. *)
Definition grade_of_number (g : Z) : option Grade :=
  if g =? 1 then Some Again
  else if g =? 2 then Some Hard
  else if g =? 3 then Some Good
  else if g =? 4 then Some Easy
  else None.

(** The engine's contract.  A card exposes [due], a date, and [reps], a
    repetition count.  [createEmptyCard] is called by the source without
    argument; ts-fsrs then stamps the card with the time of the call
    ([due: now ? ... : new Date()]), so the clock reading is an argument
    here.  [repeat] is [f.repeat(card, now)], indexed by grade. *)
Class Engine : Type := {
  Card : Type;
  ReviewLog : Type;
  due : Card → Z;
  reps : Card → N;
  createEmptyCard : Z → Card;
  repeat : Card → Z → Grade → Card * ReviewLog;
}.

End Fsrs.

(** ** [@/utils/misc] *)

Module Misc.

(** Modelled from the spec: [isPrefix] of [@/utils/misc] is not among the
    sources.  "Path A is a prefix of path B if every element of A equals
    the corresponding element of B and length(A) ≤ length(B)." *)
Fixpoint isPrefix (shorter longer : list nat) : bool :=
  match shorter, longer with
  | [], _ => true
  | _ :: _, [] => false
  | x :: shorter', y :: longer' => (x =? y)%nat && isPrefix shorter' longer'
  end.

End Misc.

(** ** [@/utils/treeReducer] *)

Module TreeReducer.

(** Modelled from the spec: the declaration of [TreeNode] is not among the
    sources.  A node exposes [fen], [halfMoves] and its ordered
    [children]; a child exposes its move notation [san], which may be
    absent. *)
#[warnings="-register-all"]
Inductive TreeNode : Type :=
  mkTreeNode {
    fen : string;
    san : option string;
    halfMoves : Z;
    children : list TreeNode;
  }.

Record Item : Type := mkItem {
  position : list nat;
  node : TreeNode;
}.

(** Modelled from the spec: [treeIterator] of [@/utils/treeReducer] is not
    among the sources.  A depth-first pre-order traversal that yields every
    node once with its path; siblings come in stored child order. *)
Fixpoint treeIteratorFrom (pos : list nat) (n : TreeNode) : list Item :=
  mkItem pos n ::
  match n with
  | mkTreeNode _ _ _ cs =>
      (fix siblings (i : nat) (cs : list TreeNode) : list Item :=
         match cs with
         | [] => []
         | c :: cs' => treeIteratorFrom (pos ++ [i]) c ++ siblings (S i) cs'
         end) 0%nat cs
  end.

(** Modelled from the spec: the traversal starts at the root, whose path
    is empty. *)
Definition treeIterator (tree : TreeNode) : list Item :=
  treeIteratorFrom [] tree.

End TreeReducer.

(** ** [opening.ts] *)

Inductive Color : Type := white | black.

(** JavaScript truthiness of a [string | null]. *)
Definition truthy (s : option string) : bool :=
  match s with
  | Some s => negb (String.eqb s EmptyString)
  | None => false
  end.

(** The [Stats] object of [getStats]. *)
Module Stats.

Record t : Type := mk {
  unseen : nat;
  due : nat;
  practiced : nat;
  nextDue : option Z;
  total : nat;
}.

End Stats.

Section Opening.

Context `{engine : Fsrs.Engine}.

Record Position : Type := mkPosition {
  fen : string;
  answer : string;
  card : Fsrs.Card;
}.

(** [item.node.children[0].san]; the source reads it only after the test
    [children.length === 0] has failed. *)
Definition firstChildSan (n : TreeReducer.TreeNode) : option string :=
  c ← head (TreeReducer.children n); TreeReducer.san c.

(** The first [if] of the loop body: the four reasons to [continue]. *)
Definition skipped (start : list nat) (cards : list Position)
    (item : TreeReducer.Item) : bool :=
  (length (TreeReducer.children (TreeReducer.node item)) =? 0)%nat
  || Misc.isPrefix (TreeReducer.position item) start
  || negb (truthy (firstChildSan (TreeReducer.node item)))
  || existsb (fun c => String.eqb (fen c) (TreeReducer.fen (TreeReducer.node item))) cards.

(** The second [if]: the side to move matches the colour.  [%] is the
    remainder that keeps the sign of the dividend. *)
Definition sideMatches (color : Color) (item : TreeReducer.Item) : bool :=
  match color with
  | white => Z.rem (TreeReducer.halfMoves (TreeReducer.node item)) 2 =? 0
  | black => Z.rem (TreeReducer.halfMoves (TreeReducer.node item)) 2 =? 1
  end.

(** One turn of the [for] loop.  [clock k] is the time at which the card
    number [k] is created. *)
Definition buildStep (clock : nat → Z) (color : Color) (start : list nat)
    (cards : list Position) (item : TreeReducer.Item) : list Position :=
  if skipped start cards item then cards
  else if sideMatches color item then
    cards ++ [ {| fen := TreeReducer.fen (TreeReducer.node item);
                  answer := default EmptyString (firstChildSan (TreeReducer.node item));
                  card := Fsrs.createEmptyCard (clock (length cards)) |} ]
  else cards.

Definition buildLoop (clock : nat → Z) (color : Color) (start : list nat)
    (items : list TreeReducer.Item) (cards : list Position) : list Position :=
  fold_left (buildStep clock color start) items cards.

Definition buildFromTree (clock : nat → Z) (tree : TreeReducer.TreeNode)
    (color : Color) (start : list nat) : list Position :=
  buildLoop clock color start (TreeReducer.treeIterator tree) [].

(** *** Stats *)

(** The body of the [for] loop of [getStats], on the mutable [stats]. *)
Definition statsStep (now : Z) (stats : Stats.t) (c : Position) : Stats.t :=
  if (Fsrs.reps (card c) =? 0)%N then
    {| Stats.unseen := S (Stats.unseen stats);
       Stats.due := Stats.due stats;
       Stats.practiced := Stats.practiced stats;
       Stats.nextDue := Stats.nextDue stats;
       Stats.total := Stats.total stats |}
  else
    let cardDue := Fsrs.due (card c) in
    let counted :=
      if cardDue <=? now then
        {| Stats.unseen := Stats.unseen stats;
           Stats.due := S (Stats.due stats);
           Stats.practiced := Stats.practiced stats;
           Stats.nextDue := Stats.nextDue stats;
           Stats.total := Stats.total stats |}
      else
        {| Stats.unseen := Stats.unseen stats;
           Stats.due := Stats.due stats;
           Stats.practiced := S (Stats.practiced stats);
           Stats.nextDue := Stats.nextDue stats;
           Stats.total := Stats.total stats |} in
    let next :=
      match Stats.nextDue counted with
      | None => Some cardDue
      | Some nextDueDate => if cardDue <? nextDueDate then Some cardDue else Some nextDueDate
      end in
    {| Stats.unseen := Stats.unseen counted;
       Stats.due := Stats.due counted;
       Stats.practiced := Stats.practiced counted;
       Stats.nextDue := next;
       Stats.total := Stats.total counted |}.

(** [getStats]; [now] is the one [new Date()] taken before the loop. *)
Definition getStats (positions : list Position) (now : Z) : Stats.t :=
  fold_left (statsStep now) positions
    {| Stats.unseen := 0; Stats.due := 0; Stats.practiced := 0;
       Stats.nextDue := None; Stats.total := length positions |}.

(** *** Review selection *)

Record ReviewOptions : Type := { random : bool }.

(** [getCardForReview].  [options] absent is the default
    [{ random: false }]; [rnd] is the value of [Math.random()], read in
    random mode only; [now] is the [new Date()] of deterministic mode. *)
Definition getCardForReview (positions : list Position)
    (options : option ReviewOptions) (rnd : Q) (now : Z) : Nullable Position :=
  let options := default {| random := false |} options in
  if random options then
    match js_index positions (Qfloor (rnd * inject_Z (Z.of_nat (length positions)))) with
    | Some p => JsValue p
    | None => JsUndefined
    end
  else
    let filtered := filter (fun position => Fsrs.due (card position) ≤ now) positions in
    if (0 <? length filtered)%nat then
      match filtered !! 0%nat with
      | Some p => JsValue p
      | None => JsUndefined
      end
    else JsNull.

(** *** The deck and its store *)

(** An entry of [logs]: the engine's log [{ ...log, fen }]. *)
Record LogEntry : Type := mkLogEntry {
  log : Fsrs.ReviewLog;
  log_fen : string;
}.

Record PracticeData : Type := mkPracticeData {
  positions : list Position;
  logs : list LogEntry;
}.

(** React's [SetStateAction<S>]: a value, or a function of the previous
    state (which may throw). *)
Inductive SetStateAction (S : Type) : Type :=
  | SetValue (v : S)
  | SetUpdater (f : S → Result S).
Arguments SetValue {S} v.
Arguments SetUpdater {S} f.

(** The atom behind [useAtom(deckAtomFamily(...))]: the state readers see
    now, and the states they saw before, latest first. *)
Record Store : Type := mkStore {
  current : PracticeData;
  past : list PracticeData;
}.

Definition publish (v : PracticeData) (st : Store) : Store :=
  {| current := v; past := current st :: past st |}.

(** A statement run against the store: it throws, or finishes in a store. *)
Definition Effect : Type := Store → Result Store.

Definition Dispatch : Type := SetStateAction PracticeData → Effect.

(** The setter returned by [useAtom]: one call publishes one state; an
    updater that throws publishes nothing. *)
Definition setDeck : Dispatch :=
  fun action st =>
    match action with
    | SetValue v => Ok (publish v st)
    | SetUpdater f =>
        match f (current st) with
        | Ok v => Ok (publish v st)
        | Throw e => Throw e
        end
    end.

(** The function handed to [setPositions] by [updateCardPerformance].
    When [i] is no index of [data.positions], the assignment
    [newPositions[i] = ...] only touches the copy, and then
    [data.positions[i].fen] reads a property of [undefined]. *)
Definition performanceUpdater (i : Z) (newCard : Fsrs.Card) (log : Fsrs.ReviewLog)
    (data : PracticeData) : Result PracticeData :=
  match js_index (positions data) i with
  | Some p =>
      let newPositions :=
        <[ Z.to_nat i := {| fen := fen p; answer := answer p; card := newCard |} ]>
          (positions data) in
      let newLogs := logs data ++ [ {| log := log; log_fen := fen p |} ] in
      Ok {| positions := newPositions; logs := newLogs |}
  | None => Throw TypeError
  end.

(** [updateCardPerformance]; [now] is its [new Date()].  Destructuring
    [schedulingCards[grade]] throws when the key is absent. *)
Definition updateCardPerformance (setPositions : Dispatch) (i : Z)
    (card : Fsrs.Card) (grade : Z) (now : Z) : Effect :=
  let schedulingCards := Fsrs.repeat card now in
  match Fsrs.grade_of_number grade with
  | Some g =>
      let '(newCard, log) := schedulingCards g in
      setPositions (SetUpdater (performanceUpdater i newCard log))
  | None => fun _ => Throw TypeError
  end.

(** ** [PracticePanel.tsx] *)

Record Headers : Type := mkHeaders {
  orientation : option Color;
  start : option (list nat);
}.

(** The first [useEffect] of [PracticePanel]: seed the deck when empty.
    [deck] is the value of the atom at this render. *)
Definition seedEffect (setDeck : Dispatch) (clock : nat → Z)
    (root : TreeReducer.TreeNode) (headers : Headers) : Effect :=
  fun st =>
    let deck := current st in
    let newDeck :=
      buildFromTree clock root (default white (orientation headers))
        (default [] (start headers)) in
    if (0 <? length newDeck)%nat && (length (positions deck) =? 0)%nat then
      setDeck (SetValue {| positions := newDeck; logs := [] |}) st
    else Ok st.

(** The [onConfirm] of the reset dialog. *)
Definition resetDeck (setDeck : Dispatch) (clock : nat → Z)
    (root : TreeReducer.TreeNode) (headers : Headers) : Effect :=
  let cards :=
    buildFromTree clock root (default white (orientation headers))
      (default [] (start headers)) in
  setDeck (SetValue {| positions := cards; logs := [] |}).

(** Two statements in sequence. *)
Definition andThen (first second : Effect) : Effect :=
  fun st =>
    match first st with
    | Ok st' => second st'
    | Throw e => Throw e
    end.

End Opening.

(** ** Specification-level notions *)

(** The three buckets of the stats. *)
Inductive Bucket : Type := Unseen | Due | Practiced.

#[global] Instance Bucket_eq_dec : EqDecision Bucket.
Proof. solve_decision. Defined.

Section Notions.

Context `{engine : Fsrs.Engine}.

(** The bucket of a card as the specification words it: unseen when
    [reps = 0], due when [reps > 0] and [due ≤ now], practiced otherwise. *)
Definition bucketOf (now : Z) (c : Position) : Bucket :=
  if (Fsrs.reps (card c) =? 0)%N then Unseen
  else if (0 <? Fsrs.reps (card c))%N && (Fsrs.due (card c) <=? now) then Due
  else Practiced.

Definition inBucket (now : Z) (b : Bucket) (cards : list Position) : nat :=
  length (filter (fun c => bucketOf now c = b) cards).

(** The card pushed for [item] when [cards] are already there. *)
Definition pushed (clock : nat → Z) (cards : list Position)
    (item : TreeReducer.Item) : Position :=
  {| fen := TreeReducer.fen (TreeReducer.node item);
     answer := default EmptyString (firstChildSan (TreeReducer.node item));
     card := Fsrs.createEmptyCard (clock (length cards)) |}.

(** What a card shows: its fen and its answer, without the schedule. *)
Definition faces (cards : list Position) : list (string * string) :=
  (fun c => (fen c, answer c)) <$> cards.

(** Modelled from the spec: the default value of [deckAtomFamily] is not
    among the sources.  "Lifecycle: created empty; seeded once ...;
    mutated in place thereafter by grading; explicitly reset."  These are
    the stores a panel can get to. *)
Inductive reachable : Store → Prop :=
  | reachable_created :
      reachable {| current := {| positions := []; logs := [] |}; past := [] |}
  | reachable_seed st st' clock root headers :
      reachable st →
      seedEffect setDeck clock root headers st = Ok st' →
      reachable st'
  | reachable_grade st st' i c grade now :
      reachable st →
      updateCardPerformance setDeck i c grade now st = Ok st' →
      reachable st'
  | reachable_reset st st' clock root headers :
      reachable st →
      resetDeck setDeck clock root headers st = Ok st' →
      reachable st'.

End Notions.

(** ** A small engine to run the definitions on

    Cards carry their due time and repetition count only; a review graded
    [g] postpones the card by [g] days.  As in ts-fsrs, a new card is due
    at the time of its creation. *)

Definition dayMs : Z := 86400000.

(** The number of a grade, as in the [Rating] enumeration of ts-fsrs:
    [Again = 1], [Hard = 2], [Good = 3], [Easy = 4]. *)
Definition gradeNumber (g : Fsrs.Grade) : Z :=
  match g with
  | Fsrs.Again => 1
  | Fsrs.Hard => 2
  | Fsrs.Good => 3
  | Fsrs.Easy => 4
  end.

Record DayCard : Type := mkDayCard { dayDue : Z; dayReps : N }.

Record DayLog : Type := mkDayLog { rating : Z; review : Z }.

Definition dayEngine : Fsrs.Engine :=
  {| Fsrs.Card := DayCard;
     Fsrs.ReviewLog := DayLog;
     Fsrs.due := dayDue;
     Fsrs.reps := dayReps;
     Fsrs.createEmptyCard := fun now => mkDayCard now 0;
     Fsrs.repeat := fun c now g =>
       (mkDayCard (now + gradeNumber g * dayMs) (dayReps c + 1),
        mkDayLog (gradeNumber g) now) |}.

(** A line [e4 e5 Nf3] with the alternative [e4 c5]. *)
Definition leaf (f s : string) (h : Z) : TreeReducer.TreeNode :=
  TreeReducer.mkTreeNode f (Some s) h [].

Definition sampleTree : TreeReducer.TreeNode :=
  TreeReducer.mkTreeNode "start" None 0
    [ TreeReducer.mkTreeNode "after e4" (Some "e4"%string) 1
        [ TreeReducer.mkTreeNode "after e4 e5" (Some "e5"%string) 2
            [ leaf "after e4 e5 Nf3" "Nf3" 3 ];
          leaf "after e4 c5" "c5" 2 ] ].

(** Two cards that are due at time 100; the second has been due longer. *)
Definition cardDueAt50 : @Position dayEngine :=
  @mkPosition dayEngine "after e4 e5" "Nf3" (mkDayCard 50 1).

Definition cardDueAt10 : @Position dayEngine :=
  @mkPosition dayEngine "after e4 c5" "Nf3" (mkDayCard 10 2).

Definition sampleDeck : @PracticeData dayEngine :=
  {| positions := [cardDueAt50; cardDueAt10]; logs := [] |}.

Definition sampleStore : @Store dayEngine :=
  {| current := sampleDeck; past := [] |}.

(** A deck without positions that still holds a log entry, as a stored
    file can. *)
Definition orphanLogDeck : @PracticeData dayEngine :=
  {| positions := [];
     logs := [ @mkLogEntry dayEngine (mkDayLog 4 70) "after e4 e5" ] |}.

Definition orphanLogStore : @Store dayEngine :=
  {| current := orphanLogDeck; past := [] |}.

Definition noHeaders : Headers := {| orientation := None; start := None |}.

Definition clockAt (t : Z) : nat → Z := fun k => t + Z.of_nat k.

Definition sampleItems : list TreeReducer.Item :=
  TreeReducer.treeIterator sampleTree.

(** [d4 d5 c4] and [c4 d5 d4] reach the same position. *)
Definition transpositionTree : TreeReducer.TreeNode :=
  TreeReducer.mkTreeNode "start" None 0
    [ TreeReducer.mkTreeNode "after d4" (Some "d4"%string) 1
        [ TreeReducer.mkTreeNode "after d4 d5" (Some "d5"%string) 2
            [ TreeReducer.mkTreeNode "queens gambit" (Some "c4"%string) 3
                [ leaf "qg e6" "e6" 4 ] ] ];
      TreeReducer.mkTreeNode "after c4" (Some "c4"%string) 1
        [ TreeReducer.mkTreeNode "after c4 d5" (Some "d5"%string) 2
            [ TreeReducer.mkTreeNode "queens gambit" (Some "d4"%string) 3
                [ leaf "qg dxc4" "dxc4" 4 ] ] ] ].

Definition transpositionItems : list TreeReducer.Item :=
  TreeReducer.treeIterator transpositionTree.

(** ** More of [PracticePanel.tsx] *)

(** The animation speeds the panel names: ["disabled"] and the keys of
    [speedToDelay]. *)
Inductive AnimationSpeed : Type :=
  | disabled
  | very_fast
  | fast
  | normal
  | slow
  | very_slow.

(** The [speedToDelay] record of [newPractice], in milliseconds. *)
Definition speedToDelay (speed : AnimationSpeed) : option Z :=
  match speed with
  | very_fast => Some 150
  | fast => Some 300
  | normal => Some 500
  | slow => Some 750
  | very_slow => Some 1000
  | disabled => None
  end.

(** What the panel does to the board, the sound and its own flags. *)
Inductive UiEvent : Type :=
  | ClearInterval
  | SetInterval (delay : Z)
  | GoToMove (path : list nat)
  | SetInvisible (b : bool)
  | SetIsAnimating (b : bool)
  | PlaySound (isCapture isCheck : bool).

(** The interval held by [animationIntervalRef] together with the
    variables its callback closes over. *)
Record Animation : Type := mkAnimation {
  targetPosition : list nat;
  currentStep : nat;
  animationDelay : Z;
}.

(** [san.includes(c)] for a needle of one character. *)
Fixpoint includes (c : Ascii.ascii) (s : string) : bool :=
  match s with
  | EmptyString => false
  | String c' s' => Ascii.eqb c' c || includes c s'
  end.

(** The check "current position is a valid prefix of target position" of
    [newPractice]: the length test, then the [for] loop that stops at the
    first index where the two arrays differ. *)
Definition isCurrentPositionValid (startPosition targetPosition : list nat) : bool :=
  if (length targetPosition <? length startPosition)%nat then false
  else
    forallb (fun i => bool_decide (startPosition !! i = targetPosition !! i))
      (seq 0 (length startPosition)).

(** Where the board stands after a run of events: at the path of the
    last [goToMove]. *)
Definition boardAfter (events : list UiEvent) (position : list nat) : list nat :=
  fold_left (fun p e => match e with GoToMove q => q | _ => p end) events position.

(** The paths handed to [goToMove] in a run of events, in order. *)
Definition goToMoves (events : list UiEvent) : list (list nat) :=
  omap (fun e => match e with GoToMove q => Some q | _ => None end) events.

Section Panel.

Context `{engine : Fsrs.Engine}.

(** [deck.positions.findIndex((c) => c.fen === fen)]: the first index
    whose card has the fen, [-1] when there is none. *)
Fixpoint findIndexFrom (k : nat) (f : string) (cards : list Position) : Z :=
  match cards with
  | [] => -1
  | c :: cards' =>
      if String.eqb (fen c) f then Z.of_nat k else findIndexFrom (S k) f cards'
  end.

Definition findIndex (f : string) (cards : list Position) : Z :=
  findIndexFrom 0 f cards.

(** The [disabled] attribute of the Next and Skip buttons. *)
Definition nextDisabled (stats : Stats.t) : bool :=
  (Stats.due stats =? 0)%nat && (Stats.unseen stats =? 0)%nat.

(** What the [onClick] of the Skip button does to the deck: grade the
    card shown on the board ([currentFen]) with 2.  Its other statements
    (stopping the animation, [newPractice()]) do not write to the deck. *)
Definition skipClicked (setDeck : Dispatch) (currentFen : string) (now : Z) : Effect :=
  fun st =>
    let deck := current st in
    let currentIndex := findIndex currentFen (positions deck) in
    if currentIndex =? -1 then Ok st
    else
      match js_index (positions deck) currentIndex with
      | Some p => updateCardPerformance setDeck currentIndex (card p) 2 now st
      | None => Throw TypeError
      end.

(** The [fenToPosition] memo: one turn of its loop and the loop.
    [findFen] belongs to [@/utils/treeReducer], which is not among the
    sources, and is an argument. *)
Definition fenToPositionStep (findFen : string → TreeReducer.TreeNode → list nat)
    (root : TreeReducer.TreeNode) (map : gmap string (list nat)) (pos : Position)
    : gmap string (list nat) :=
  if bool_decide (is_Some (map !! fen pos)) then map
  else <[ fen pos := findFen (fen pos) root ]> map.

Definition fenToPosition (findFen : string → TreeReducer.TreeNode → list nat)
    (positions : list Position) (root : TreeReducer.TreeNode)
    : gmap string (list nat) :=
  fold_left (fenToPositionStep findFen root) positions ∅.

(** [newPractice]: the events it causes and the interval it leaves in
    [animationIntervalRef].  [position] is the path the board is at,
    [now] the clock reading of [getCardForReview]. *)
Definition newPractice (deck : PracticeData) (fenToPosition : gmap string (list nat))
    (position : list nat) (practiceAnimationSpeed : AnimationSpeed) (now : Z)
    (animationIntervalRef : option Animation)
    : list UiEvent * option Animation :=
  if (length (positions deck) =? 0)%nat then ([], animationIntervalRef)
  else
    match getCardForReview (positions deck) None 0%Q now with
    | JsValue c =>
        let cleared :=
          match animationIntervalRef with
          | Some _ => [ClearInterval]
          | None => []
          end in
        let targetPosition := default [] (fenToPosition !! fen c) in
        match practiceAnimationSpeed with
        | disabled => (cleared ++ [GoToMove targetPosition; SetInvisible true], None)
        | _ =>
            if (length targetPosition =? 0)%nat then
              (cleared ++ [GoToMove targetPosition; SetInvisible true], None)
            else
              let animationDelay := default 500 (speedToDelay practiceAnimationSpeed) in
              let isValid := isCurrentPositionValid position targetPosition in
              let startPosition := if isValid then position else [] in
              (cleared
                 ++ (if isValid then [] else [GoToMove []])
                 ++ [SetIsAnimating true; SetInterval animationDelay],
               Some {| targetPosition := targetPosition;
                       currentStep := length startPosition;
                       animationDelay := animationDelay |})
        end
    | JsNull | JsUndefined => ([], animationIntervalRef)
    end.

End Panel.

(** One call of the interval's callback; nothing runs when no interval is
    set.  [getNodeAtPath] belongs to [@/utils/treeReducer], which is not
    among the sources, and is an argument. *)
Definition tick (getNodeAtPath : TreeReducer.TreeNode → list nat → option TreeReducer.TreeNode)
    (root : TreeReducer.TreeNode) (animationIntervalRef : option Animation)
    : list UiEvent * option Animation :=
  match animationIntervalRef with
  | None => ([], None)
  | Some a =>
      if (currentStep a <? length (targetPosition a))%nat then
        let nextPosition := take (S (currentStep a)) (targetPosition a) in
        let sound :=
          match getNodeAtPath root nextPosition with
          | Some node =>
              if truthy (TreeReducer.san node) then
                let san := default EmptyString (TreeReducer.san node) in
                [PlaySound (includes "x"%char san) (includes "+"%char san)]
              else []
          | None => []
          end in
        (GoToMove nextPosition :: sound,
         Some {| targetPosition := targetPosition a;
                 currentStep := S (currentStep a);
                 animationDelay := animationDelay a |})
      else ([ClearInterval; SetIsAnimating false; SetInvisible true], None)
  end.

(** The first [n] calls of the callback. *)
Fixpoint runTicks (getNodeAtPath : TreeReducer.TreeNode → list nat → option TreeReducer.TreeNode)
    (root : TreeReducer.TreeNode) (n : nat) (animationIntervalRef : option Animation)
    : list UiEvent * option Animation :=
  match n with
  | O => ([], animationIntervalRef)
  | S n' =>
      let '(events, ref') := tick getNodeAtPath root animationIntervalRef in
      let '(events', ref'') := runTicks getNodeAtPath root n' ref' in
      (events ++ events', ref'')
  end.

(** Sample data for the panel: a memo that knows the first sample card, a
    tree lookup that finds nothing, an animation one move into a line of
    three. *)
Definition sampleMemo : gmap string (list nat) :=
  {[ "after e4 e5"%string := [0%nat; 0%nat] ]}.

Definition noNodeAtPath : TreeReducer.TreeNode → list nat → option TreeReducer.TreeNode :=
  fun _ _ => None.

Definition sampleAnimation : Animation :=
  {| targetPosition := [0%nat; 0%nat; 1%nat];
     currentStep := 1;
     animationDelay := 500 |}.

(** * Properties *)

(** ** Stats: the three buckets *)

Section StatsProperties.

Context `{engine : Fsrs.Engine}.

Lemma bucketOf_cases now c :
  ((Fsrs.reps (card c) =? 0)%N = true ∧ bucketOf now c = Unseen)
  ∨ ((Fsrs.reps (card c) =? 0)%N = false ∧ (Fsrs.due (card c) <=? now) = true
     ∧ bucketOf now c = Due)
  ∨ ((Fsrs.reps (card c) =? 0)%N = false ∧ (Fsrs.due (card c) <=? now) = false
     ∧ bucketOf now c = Practiced).
Proof.
  unfold bucketOf.
  destruct (Fsrs.reps (card c) =? 0)%N eqn:Hr; [by left|].
  apply N.eqb_neq in Hr.
  assert ((0 <? Fsrs.reps (card c))%N = true) as -> by (apply N.ltb_lt; lia).
  destruct (Fsrs.due (card c) <=? now); simpl; [right; left|right; right]; done.
Qed.

Lemma inBucket_cons now b c cards :
  inBucket now b (c :: cards) =
  ((if decide (bucketOf now c = b) then 1 else 0) + inBucket now b cards)%nat.
Proof.
  unfold inBucket. rewrite filter_cons.
  destruct (decide (bucketOf now c = b)); reflexivity.
Qed.

(** The loop adds each card to the counter of its bucket and leaves
    [total] alone. *)
Lemma statsLoop_counts now cards : ∀ stats,
  let out := fold_left (statsStep now) cards stats in
  Stats.unseen out = (Stats.unseen stats + inBucket now Unseen cards)%nat
  ∧ Stats.due out = (Stats.due stats + inBucket now Due cards)%nat
  ∧ Stats.practiced out = (Stats.practiced stats + inBucket now Practiced cards)%nat
  ∧ Stats.total out = Stats.total stats.
Proof.
  induction cards as [|c cards IH]; intros stats; simpl.
  - unfold inBucket; simpl. repeat split; lia.
  - destruct (IH (statsStep now stats c)) as (Hu & Hd & Hp & Ht).
    rewrite Hu, Hd, Hp, Ht, !inBucket_cons. clear IH Hu Hd Hp Ht.
    unfold statsStep.
    destruct (bucketOf_cases now c) as [[Hr Hb]|[(Hr & Hdue & Hb)|(Hr & Hdue & Hb)]];
      rewrite Hr, ?Hdue, Hb; simpl; repeat split; lia.
Qed.

Lemma inBucket_partition now (cards : list Position) :
  (inBucket now Unseen cards + inBucket now Due cards
   + inBucket now Practiced cards = length cards)%nat.
Proof.
  induction cards as [|c cards IH]; [reflexivity|].
  rewrite !inBucket_cons. simpl length.
  destruct (bucketOf now c); simpl; lia.
Qed.

(** C8.  [getStats] puts every card in exactly one of the three buckets
    (unseen when [reps = 0], due when [reps > 0] and [due ≤ now] for the
    one [now] of the computation, practiced otherwise), [total] is the
    length of the list, so [unseen + due + practiced = total]; on the empty
    list all counts are 0 and there is no [nextDue]. *)
Theorem getStats_buckets_sum_to_total (cards : list Position) (now : Z) :
  let stats := getStats cards now in
  Stats.total stats = length cards
  ∧ Stats.unseen stats = inBucket now Unseen cards
  ∧ Stats.due stats = inBucket now Due cards
  ∧ Stats.practiced stats = inBucket now Practiced cards
  ∧ (Stats.unseen stats + Stats.due stats + Stats.practiced stats
     = Stats.total stats)%nat
  ∧ getStats [] now = Stats.mk 0 0 0 None 0.
Proof.
  intros stats. subst stats. unfold getStats.
  destruct (statsLoop_counts now cards
              (Stats.mk 0 0 0 None (length cards))) as (Hu & Hd & Hp & Ht).
  simpl in Hu, Hd, Hp, Ht.
  pose proof (inBucket_partition now cards).
  rewrite Hu, Hd, Hp, Ht. repeat split; try reflexivity; lia.
Qed.

End StatsProperties.

(** ** Review selection *)

Section SelectionProperties.

Context `{engine : Fsrs.Engine}.

(** A non-empty result of [filter] starts at the first element that passes. *)
Lemma filter_head_split {A} (P : A → Prop) `{∀ x, Decision (P x)} (l : list A) c rest :
  filter P l = c :: rest →
  ∃ before after, l = before ++ c :: after ∧ P c ∧ Forall (fun x => ¬ P x) before.
Proof.
  induction l as [|x l IH]; [done|].
  rewrite filter_cons. destruct (decide (P x)) as [Hx|Hx].
  - intros [= -> <-]. exists [], l. by repeat split.
  - intros Hf. destruct (IH Hf) as (before & after & -> & Hc & Hb).
    exists (x :: before), after. repeat split; [done|]. by constructor.
Qed.

Lemma filter_after_rejected {A} (P : A → Prop) `{∀ x, Decision (P x)} (before : list A) l :
  Forall (fun x => ¬ P x) before → filter P (before ++ l) = filter P l.
Proof.
  induction 1 as [|x before Hx _ IH]; [done|].
  simpl. rewrite filter_cons. by destruct (decide (P x)).
Qed.

Lemma filter_none {A} (P : A → Prop) `{∀ x, Decision (P x)} (l : list A) :
  filter P l = [] ↔ Forall (fun x => ¬ P x) l.
Proof.
  split.
  - induction l as [|x l IH]; [constructor|].
    rewrite filter_cons. destruct (decide (P x)); [done|].
    intros Hf. constructor; auto.
  - intros Hl. rewrite <- (app_nil_r l). by rewrite filter_after_rejected.
Qed.

(** Deterministic mode is "the head of the filtered list, else [null]". *)
Lemma getCardForReview_deterministic_eq (cards : list Position) options rnd now :
  random (default {| random := false |} options) = false →
  getCardForReview cards options rnd now =
  match filter (fun p => Fsrs.due (card p) ≤ now) cards with
  | c :: _ => JsValue c
  | [] => JsNull
  end.
Proof.
  intros Hmode. unfold getCardForReview. rewrite Hmode.
  by destruct (filter _ cards).
Qed.

(** C3.  In deterministic mode [getCardForReview] returns the first card
    in list order whose [due] is at most [now], and [null] exactly when no
    card has [due ≤ now]; a card at the head that is due is returned
    whatever the due times behind it, earlier ones included.  The input
    list is an argument of a function and is not changed. *)
Theorem getCardForReview_first_due_in_list_order
    (cards : list Position) (options : option ReviewOptions) (rnd : Q) (now : Z) :
  random (default {| random := false |} options) = false →
  (∀ c, getCardForReview cards options rnd now = JsValue c ↔
        ∃ before after, cards = before ++ c :: after
          ∧ Fsrs.due (card c) ≤ now
          ∧ Forall (fun p => now < Fsrs.due (card p)) before)
  ∧ (getCardForReview cards options rnd now = JsNull ↔
       Forall (fun p => now < Fsrs.due (card p)) cards)
  ∧ getCardForReview cards options rnd now ≠ JsUndefined
  ∧ (∀ c rest, cards = c :: rest → Fsrs.due (card c) ≤ now →
       getCardForReview cards options rnd now = JsValue c).
Proof.
  intros Hmode. rewrite getCardForReview_deterministic_eq by done.
  assert (∀ l : list Position,
    Forall (fun p => ¬ Fsrs.due (card p) ≤ now) l
    ↔ Forall (fun p => now < Fsrs.due (card p)) l) as Hlate.
  { intros l. apply Forall_proper; [|done]. intros p. lia. }
  repeat split.
  - destruct (filter _ cards) as [|c' rest] eqn:Hf; [done|].
    intros [= <-]. apply filter_head_split in Hf as (before & after & -> & Hc & Hb).
    exists before, after. by rewrite <- Hlate.
  - intros (before & after & -> & Hc & Hb).
    rewrite filter_after_rejected by by apply Hlate.
    rewrite filter_cons. by destruct (decide (Fsrs.due (card c) ≤ now)).
  - destruct (filter _ cards) eqn:Hf; [|done].
    intros _. apply Hlate.
    by apply (filter_none (fun p => Fsrs.due (card p) ≤ now)).
  - intros Hl. apply Hlate in Hl.
    apply (filter_none (fun p => Fsrs.due (card p) ≤ now)) in Hl. by rewrite Hl.
  - by destruct (filter _ cards).
  - intros c rest -> Hc. rewrite filter_cons.
    by destruct (decide (Fsrs.due (card c) ≤ now)).
Qed.

(** C10.  In random mode on the empty list the index [Math.floor(r * 0)]
    is read out of range and the result is [undefined], whatever [r];
    deterministic mode answers [null] on the same list, and the two values
    are distinct. *)
Theorem getCardForReview_random_empty_is_undefined (rnd : Q) (now : Z) :
  getCardForReview ([] : list Position) (Some {| random := true |}) rnd now = JsUndefined
  ∧ getCardForReview ([] : list Position) (Some {| random := false |}) rnd now = JsNull
  ∧ getCardForReview ([] : list Position) None rnd now = JsNull
  ∧ (JsUndefined : Nullable Position) ≠ JsNull.
Proof.
  repeat split; try done.
  unfold getCardForReview, js_index; cbn [default random length].
  by destruct (0 <=? _).
Qed.

End SelectionProperties.

(** The head of the list is due at 50, the card behind it has been due
    since 10: at time 100 the head is returned. *)
Lemma getCardForReview_first_due_in_list_order_witness :
  random (default {| random := false |} None) = false
  ∧ getCardForReview [cardDueAt50; cardDueAt10] None 0 100 = JsValue cardDueAt50.
Proof.
  split; [reflexivity|].
  destruct (getCardForReview_first_due_in_list_order
              (engine := dayEngine) [cardDueAt50; cardDueAt10] None 0 100 eq_refl)
    as (_ & _ & _ & Hhead).
  apply (Hhead cardDueAt50 [cardDueAt10] eq_refl). simpl. lia.
Defined.

(** ** Grading *)

Section GradingProperties.

Context `{engine : Fsrs.Engine}.

Lemma grade_of_number_Some grade :
  1 ≤ grade ≤ 4 ↔ is_Some (Fsrs.grade_of_number grade).
Proof.
  unfold Fsrs.grade_of_number. split.
  - intros Hg.
    assert (grade = 1 ∨ grade = 2 ∨ grade = 3 ∨ grade = 4) as Hcases by lia.
    destruct Hcases as [-> | [-> | [-> | ->]]]; simpl; eauto.
  - destruct (Z.eqb_spec grade 1); [lia|].
    destruct (Z.eqb_spec grade 2); [lia|].
    destruct (Z.eqb_spec grade 3); [lia|].
    destruct (Z.eqb_spec grade 4); [lia|].
    by intros [? ?].
Qed.

(** The key read in [schedulingCards] is the grade's own number. *)
Lemma grade_of_number_gradeNumber grade g :
  Fsrs.grade_of_number grade = Some g → gradeNumber g = grade.
Proof.
  unfold Fsrs.grade_of_number.
  destruct (Z.eqb_spec grade 1); [by intros [= <-]|].
  destruct (Z.eqb_spec grade 2); [by intros [= <-]|].
  destruct (Z.eqb_spec grade 3); [by intros [= <-]|].
  destruct (Z.eqb_spec grade 4); [by intros [= <-]|].
  done.
Qed.

Lemma js_index_Some {A} (arr : list A) i :
  0 ≤ i < Z.of_nat (length arr) ↔ is_Some (js_index arr i).
Proof.
  unfold js_index. destruct (0 <=? i) eqn:Hi.
  - apply Z.leb_le in Hi. rewrite lookup_lt_is_Some. lia.
  - apply Z.leb_gt in Hi. split; [lia|]. by intros [? ?].
Qed.

(** C4.  For a valid index [i] and a grade among 1, 2, 3, 4, grading
    publishes exactly one new state: its logs are the old logs with one
    entry appended, tagged with the fen of card [i]; its card [i] carries
    the engine's outcome for the grade supplied (the outcome [g] whose
    number is [grade]); every other card is as before.  No state with only
    one of the two changes is published. *)
Theorem updateCardPerformance_atomic
    (st : Store) (i : Z) (c : Fsrs.Card) (grade now : Z) :
  0 ≤ i < Z.of_nat (length (positions (current st))) →
  1 ≤ grade ≤ 4 →
  ∃ p g,
    positions (current st) !! Z.to_nat i = Some p
    ∧ Fsrs.grade_of_number grade = Some g
    ∧ gradeNumber g = grade
    ∧ let newCard := (Fsrs.repeat c now g).1 in
      let entry := {| log := (Fsrs.repeat c now g).2; log_fen := fen p |} in
      let graded := {| fen := fen p; answer := answer p; card := newCard |} in
      ∃ newPositions,
        updateCardPerformance setDeck i c grade now st =
          Ok {| current := {| positions := newPositions;
                              logs := logs (current st) ++ [entry] |};
                past := current st :: past st |}
        ∧ length newPositions = length (positions (current st))
        ∧ newPositions !! Z.to_nat i = Some graded
        ∧ (∀ j, j ≠ Z.to_nat i → newPositions !! j = positions (current st) !! j).
Proof.
  intros Hi Hg.
  apply js_index_Some in Hi as Hp. destruct Hp as [p Hp].
  apply grade_of_number_Some in Hg as [g Hgrade].
  exists p, g. split.
  { unfold js_index in Hp. by destruct (0 <=? i). }
  split; [done|]. split; [by apply grade_of_number_gradeNumber|]. cbv zeta.
  exists (<[Z.to_nat i := {| fen := fen p; answer := answer p;
                             card := (Fsrs.repeat c now g).1 |}]>
            (positions (current st))).
  split; [|split; [|split]].
  - unfold updateCardPerformance. rewrite Hgrade.
    destruct (Fsrs.repeat c now g) as [newCard entry]. simpl.
    unfold performanceUpdater. by rewrite Hp.
  - apply length_insert.
  - apply list_lookup_insert_eq. lia.
  - intros j Hj. by apply list_lookup_insert_ne.
Qed.

(** C6.  With an index outside the positions list, or a grade outside
    1, 2, 3, 4, grading throws a [TypeError]: it returns no store, so the
    deck is neither kept silently nor updated in part. *)
Theorem updateCardPerformance_invalid_argument_throws
    (st : Store) (i : Z) (c : Fsrs.Card) (grade now : Z) :
  ¬ (0 ≤ i < Z.of_nat (length (positions (current st)))) ∨ ¬ (1 ≤ grade ≤ 4) →
  updateCardPerformance setDeck i c grade now st = Throw TypeError.
Proof.
  intros Hbad. unfold updateCardPerformance.
  destruct (Fsrs.grade_of_number grade) as [g|] eqn:Hgrade; [|done].
  destruct Hbad as [Hi|Hg].
  - destruct (Fsrs.repeat c now g) as [newCard entry]. simpl.
    unfold performanceUpdater.
    destruct (js_index (positions (current st)) i) as [p|] eqn:Hp; [|done].
    destruct Hi. apply js_index_Some. eauto.
  - destruct Hg. apply grade_of_number_Some. eauto.
Qed.

End GradingProperties.

(** Grading the second card of the sample deck with 4 at time 100: the
    card is due four days later, the first card is as before. *)
Lemma updateCardPerformance_atomic_witness :
  (0 ≤ 1 < Z.of_nat (length (positions (current sampleStore))))
  ∧ 1 ≤ 4 ≤ 4
  ∧ ∃ st', updateCardPerformance setDeck 1 (card cardDueAt10) 4 100 sampleStore = Ok st'
      ∧ past st' = [sampleDeck]
      ∧ length (logs (current st')) = 1%nat
      ∧ positions (current st') !! 1%nat
        = Some (@mkPosition dayEngine "after e4 c5" "Nf3"
                  (mkDayCard (100 + 4 * dayMs) 3))
      ∧ positions (current st') !! 0%nat = Some cardDueAt50.
Proof.
  split; [simpl; lia|]. split; [lia|].
  destruct (updateCardPerformance_atomic sampleStore 1 (card cardDueAt10) 4 100)
    as (p & g & Hp & _ & Hg & newPositions & Hrun & _ & Hgraded & Hothers);
    [simpl; lia|lia|].
  injection Hp as <-.
  assert (g = Fsrs.Easy) as -> by (destruct g; simpl in Hg; congruence).
  eexists. split; [exact Hrun|]. split; [reflexivity|]. split; [reflexivity|].
  split; [exact Hgraded|].
  simpl. rewrite (Hothers 0%nat) by (simpl; lia). reflexivity.
Defined.

(** Index 5 in a deck of two cards; grade 7. *)
Lemma updateCardPerformance_invalid_argument_throws_witness :
  ¬ (0 ≤ 5 < Z.of_nat (length (positions (current sampleStore))))
  ∧ updateCardPerformance setDeck 5 (card cardDueAt10) 4 100 sampleStore = Throw TypeError
  ∧ updateCardPerformance setDeck 1 (card cardDueAt10) 7 100 sampleStore = Throw TypeError.
Proof.
  assert (¬ (0 ≤ 5 < Z.of_nat (length (positions (current sampleStore))))) as Hi
    by (simpl; lia).
  split; [exact Hi|]. split.
  - apply updateCardPerformance_invalid_argument_throws. left. exact Hi.
  - apply updateCardPerformance_invalid_argument_throws. right. lia.
Defined.

(** ** Seeding *)

Section SeedingProperties.

Context `{engine : Fsrs.Engine}.

(** C5.  On a deck with at least one position the seeding effect calls
    no setter: the store, and with it positions and logs, stays as it is,
    for any tree, side and mastered prefix; running the effect a second
    time changes nothing either. *)
Theorem seedEffect_nonempty_is_noop
    (st : Store) (clock : nat → Z) (root : TreeReducer.TreeNode) (headers : Headers) :
  positions (current st) ≠ [] →
  seedEffect setDeck clock root headers st = Ok st
  ∧ ∀ clock' root' headers',
      andThen (seedEffect setDeck clock root headers)
              (seedEffect setDeck clock' root' headers') st = Ok st.
Proof.
  intros Hne.
  assert (∀ k r h, seedEffect setDeck k r h st = Ok st) as Hnoop.
  { intros k r h. unfold seedEffect.
    destruct (positions (current st)); [done|]. simpl.
    by rewrite andb_false_r. }
  split; [apply Hnoop|].
  intros clock' root' headers'. unfold andThen. by rewrite !Hnoop.
Qed.

(** C1, as the code has it.  On a deck without positions, when the build
    yields at least one card, the seeding effect publishes one state whose
    positions are the build result and whose logs are empty: the logs are
    those of before exactly when there were none. *)
Theorem seedEffect_empty_deck_seeds_and_resets_logs
    (st : Store) (clock : nat → Z) (root : TreeReducer.TreeNode) (headers : Headers) :
  let newDeck :=
    buildFromTree clock root (default white (orientation headers))
      (default [] (start headers)) in
  positions (current st) = [] →
  newDeck ≠ [] →
  ∃ st', seedEffect setDeck clock root headers st = Ok st'
    ∧ past st' = current st :: past st
    ∧ positions (current st') = newDeck
    ∧ logs (current st') = []
    ∧ (logs (current st') = logs (current st) ↔ logs (current st) = []).
Proof.
  intros newDeck Hempty Hbuilt.
  exists (publish {| positions := newDeck; logs := [] |} st).
  split.
  - unfold seedEffect. fold newDeck. rewrite Hempty.
    destruct newDeck; [done|]. reflexivity.
  - simpl. repeat split; done.
Qed.

(** Grading never removes a position. *)
Lemma updateCardPerformance_keeps_positions st st' i c grade now :
  updateCardPerformance setDeck i c grade now st = Ok st' →
  length (positions (current st')) = length (positions (current st)).
Proof.
  unfold updateCardPerformance.
  destruct (Fsrs.grade_of_number grade); [|done].
  destruct (Fsrs.repeat c now g) as [newCard entry]. simpl.
  unfold performanceUpdater.
  destruct (js_index (positions (current st)) i); [|done].
  intros [= <-]. simpl. apply length_insert.
Qed.

(** In every store the panel gets to, a deck without positions has no
    logs: there the seeding effect finds no log to drop. *)
Lemma reachable_empty_positions_no_logs st :
  reachable st → positions (current st) = [] → logs (current st) = [].
Proof.
  induction 1 as [|st st' clock root headers _ IH Hseed
                  |st st' i c grade now _ IH Hgrade
                  |st st' clock root headers _ IH Hreset]; [done|..].
  - unfold seedEffect in Hseed.
    destruct (_ && _) in Hseed; simpl in Hseed;
      injection Hseed as <-; [done|exact IH].
  - intros Hempty.
    pose proof (updateCardPerformance_keeps_positions _ _ _ _ _ _ Hgrade) as Hlen.
    rewrite Hempty in Hlen.
    destruct (positions (current st)) eqn:Hpos; [|done].
    revert Hgrade. unfold updateCardPerformance.
    destruct (Fsrs.grade_of_number grade); [|done].
    destruct (Fsrs.repeat c now g) as [newCard entry]. simpl.
    unfold performanceUpdater, js_index. rewrite Hpos.
    by destruct (0 <=? i).
  - injection Hreset as <-. done.
Qed.

End SeedingProperties.

Lemma seedEffect_nonempty_is_noop_witness :
  positions (current sampleStore) ≠ []
  ∧ seedEffect setDeck (clockAt 1000) sampleTree noHeaders sampleStore = Ok sampleStore.
Proof.
  assert (positions (current sampleStore) ≠ []) as Hne by (simpl; congruence).
  split; [exact Hne|].
  exact (proj1 (seedEffect_nonempty_is_noop sampleStore (clockAt 1000)
                  sampleTree noHeaders Hne)).
Defined.

(** The orphan log entry is gone after seeding. *)
Lemma seedEffect_preserves_logs_counterexample :
  positions (current orphanLogStore) = []
  ∧ buildFromTree (engine := dayEngine) (clockAt 1000) sampleTree white [] ≠ []
  ∧ ∃ st', seedEffect setDeck (clockAt 1000) sampleTree noHeaders orphanLogStore = Ok st'
      ∧ logs (current st') ≠ logs (current orphanLogStore).
Proof.
  split; [reflexivity|]. split; [by vm_compute|].
  eexists. split; [vm_compute; reflexivity|]. by vm_compute.
Qed.

Lemma seedEffect_empty_deck_seeds_and_resets_logs_witness :
  positions (current orphanLogStore) = []
  ∧ buildFromTree (engine := dayEngine) (clockAt 1000) sampleTree white [] ≠ []
  ∧ ∃ st', seedEffect setDeck (clockAt 1000) sampleTree noHeaders orphanLogStore = Ok st'
      ∧ logs (current st') = [].
Proof.
  assert (buildFromTree (engine := dayEngine) (clockAt 1000) sampleTree white [] ≠ [])
    as Hbuilt by (vm_compute; congruence).
  split; [reflexivity|]. split; [exact Hbuilt|].
  destruct (seedEffect_empty_deck_seeds_and_resets_logs orphanLogStore (clockAt 1000)
              sampleTree noHeaders eq_refl Hbuilt)
    as (st' & Hrun & _ & _ & Hlogs & _).
  exists st'. by split.
Defined.

(** ** Building the deck *)

Section BuildProperties.

Context `{engine : Fsrs.Engine}.

Implicit Types (clock : nat → Z) (color : Color) (start : list nat).
Implicit Types (cards : list Position) (item : TreeReducer.Item).
Implicit Types (items : list TreeReducer.Item).

Lemma isPrefix_antisym (a b : list nat) :
  Misc.isPrefix a b = true → Misc.isPrefix b a = true → a = b.
Proof.
  revert b. induction a as [|x a IH]; intros [|y b]; simpl; try done.
  intros [Hxy Hab]%andb_prop [_ Hba]%andb_prop.
  apply Nat.eqb_eq in Hxy as ->. f_equal. by apply IH.
Qed.

Lemma fen_known_spec cards (f : string) :
  existsb (fun c => String.eqb (fen c) f) cards = true ↔ f ∈ fen <$> cards.
Proof.
  induction cards as [|c cards IH]; simpl.
  - rewrite elem_of_nil. split; [done|tauto].
  - rewrite orb_true_iff, IH, elem_of_cons, String.eqb_eq. split; intros [|]; auto.
Qed.

Lemma skipped_false start cards item :
  skipped start cards item = false ↔
    TreeReducer.children (TreeReducer.node item) ≠ []
    ∧ Misc.isPrefix (TreeReducer.position item) start = false
    ∧ truthy (firstChildSan (TreeReducer.node item)) = true
    ∧ TreeReducer.fen (TreeReducer.node item) ∉ fen <$> cards.
Proof.
  unfold skipped. rewrite !orb_false_iff, negb_false_iff.
  rewrite <- fen_known_spec, not_true_iff_false.
  destruct (TreeReducer.children (TreeReducer.node item)); simpl; intuition congruence.
Qed.

Lemma buildStep_cases clock color start cards item :
  buildStep clock color start cards item = cards
  ∨ (skipped start cards item = false
     ∧ sideMatches color item = true
     ∧ buildStep clock color start cards item = cards ++ [pushed clock cards item]).
Proof.
  unfold buildStep.
  destruct (skipped start cards item); [by left|].
  destruct (sideMatches color item); [by right|by left].
Qed.

Lemma buildLoop_snoc clock color start items item cards :
  buildLoop clock color start (items ++ [item]) cards =
  buildStep clock color start (buildLoop clock color start items cards) item.
Proof. unfold buildLoop. by rewrite fold_left_app. Qed.

Lemma buildLoop_app clock color start items1 items2 cards :
  buildLoop clock color start (items1 ++ items2) cards =
  buildLoop clock color start items2 (buildLoop clock color start items1 cards).
Proof. unfold buildLoop. by rewrite fold_left_app. Qed.

(** Cards are only ever pushed at the end. *)
Lemma buildLoop_extends clock color start items : ∀ cards,
  cards `prefix_of` buildLoop clock color start items cards.
Proof.
  induction items as [|item items IH]; intros cards; simpl; [done|].
  etrans; [|apply IH].
  destruct (buildStep_cases clock color start cards item) as [->|(_ & _ & ->)];
    [done|by apply prefix_app_r].
Qed.

Lemma buildStep_NoDup clock color start cards item :
  NoDup (fen <$> cards) → NoDup (fen <$> buildStep clock color start cards item).
Proof.
  intros Hnd.
  destruct (buildStep_cases clock color start cards item)
    as [->|(Hskip & _ & ->)]; [done|].
  apply skipped_false in Hskip as (_ & _ & _ & Hfresh).
  rewrite fmap_app. apply NoDup_app. split; [done|]. split.
  - intros f Hf. simpl. rewrite list_elem_of_singleton. by intros ->.
  - simpl. apply NoDup_singleton.
Qed.

Lemma buildLoop_NoDup clock color start items : ∀ cards,
  NoDup (fen <$> cards) → NoDup (fen <$> buildLoop clock color start items cards).
Proof.
  induction items as [|item items IH]; intros cards Hnd; simpl; [done|].
  by apply IH, buildStep_NoDup.
Qed.

(** C7.  The cards returned by [buildFromTree] have pairwise distinct
    fens.  A card, once pushed, stays where it is, and a node met later
    whose fen a card already has pushes nothing: the first node accepted
    for a fen keeps it. *)
Theorem buildFromTree_fen_unique
    clock (tree : TreeReducer.TreeNode) color start :
  NoDup (fen <$> buildFromTree clock tree color start)
  ∧ ∀ before item after,
      TreeReducer.treeIterator tree = before ++ item :: after →
      let cards := buildLoop clock color start before [] in
      cards `prefix_of` buildFromTree clock tree color start
      ∧ (TreeReducer.fen (TreeReducer.node item) ∈ fen <$> cards →
         buildLoop clock color start (before ++ [item]) [] = cards).
Proof.
  split.
  - apply buildLoop_NoDup. simpl. constructor.
  - intros before item after Hsplit cards. split.
    + unfold buildFromTree. rewrite Hsplit, buildLoop_app. apply buildLoop_extends.
    + intros Hknown. rewrite buildLoop_snoc. fold cards.
      destruct (buildStep_cases clock color start cards item)
        as [->|(Hskip & _ & _)]; [done|].
      by apply skipped_false in Hskip as (_ & _ & _ & Hfresh).
Qed.

(** What holds of every card pushed for a visited node holds of every
    card of the result. *)
Lemma buildLoop_invariant clock color start (Inv : Position → Prop) items : ∀ cards,
  (∀ item seen, item ∈ items →
     skipped start seen item = false → sideMatches color item = true →
     Inv (pushed clock seen item)) →
  Forall Inv cards →
  Forall Inv (buildLoop clock color start items cards).
Proof.
  induction items as [|item items IH]; intros cards Hpush Hcards; simpl; [done|].
  apply IH.
  - intros item' seen Hin. apply Hpush. by right.
  - destruct (buildStep_cases clock color start cards item)
      as [->|(Hskip & Hside & ->)]; [done|].
    apply Forall_app. split; [done|].
    constructor; [|constructor]. apply Hpush; [by left|done..].
Qed.

Lemma truthy_Some (s : option string) :
  truthy s = true → s = Some (default EmptyString s).
Proof. by destruct s. Qed.

(** C2.  A visited node whose path is a prefix of the mastered path
    pushes no card, and every card of the result comes from a node whose
    path is no prefix of the mastered path.  A node whose path extends the
    mastered path strictly is not a prefix of it, and is pushed when it
    passes the other tests. *)
Theorem buildFromTree_prefix_exclusion_direction
    clock (tree : TreeReducer.TreeNode) color start :
  (∀ before item after,
     TreeReducer.treeIterator tree = before ++ item :: after →
     let cards := buildLoop clock color start before [] in
     (Misc.isPrefix (TreeReducer.position item) start = true →
      buildLoop clock color start (before ++ [item]) [] = cards)
     ∧ (Misc.isPrefix start (TreeReducer.position item) = true →
        TreeReducer.position item ≠ start →
        Misc.isPrefix (TreeReducer.position item) start = false
        ∧ (TreeReducer.children (TreeReducer.node item) ≠ [] →
           truthy (firstChildSan (TreeReducer.node item)) = true →
           TreeReducer.fen (TreeReducer.node item) ∉ fen <$> cards →
           sideMatches color item = true →
           buildLoop clock color start (before ++ [item]) [] =
             cards ++ [pushed clock cards item])))
  ∧ Forall (fun c => ∃ item,
              item ∈ TreeReducer.treeIterator tree
              ∧ Misc.isPrefix (TreeReducer.position item) start = false
              ∧ fen c = TreeReducer.fen (TreeReducer.node item)
              ∧ firstChildSan (TreeReducer.node item) = Some (answer c))
      (buildFromTree clock tree color start).
Proof.
  split.
  - intros before item after _ cards. rewrite buildLoop_snoc. fold cards. split.
    + intros Hprefix. unfold buildStep, skipped. rewrite Hprefix.
      by rewrite orb_true_r.
    + intros Hext Hne.
      assert (Misc.isPrefix (TreeReducer.position item) start = false) as Hnot.
      { apply not_true_iff_false. intros Hprefix.
        apply Hne. by apply isPrefix_antisym. }
      split; [done|]. intros Hchildren Hsan Hfresh Hside.
      unfold buildStep.
      by rewrite (proj2 (skipped_false start cards item)), Hside.
  - apply buildLoop_invariant; [|constructor].
    intros item seen Hin Hskip _.
    apply skipped_false in Hskip as (_ & Hnot & Hsan & _).
    exists item. repeat split; try done. simpl. by apply truthy_Some.
Qed.

(** *** Two builds of the same tree *)

Lemma fen_known_faces cards (f : string) :
  existsb (fun c => String.eqb (fen c) f) cards
  = existsb (fun x => String.eqb x.1 f) (faces cards).
Proof.
  unfold faces. induction cards as [|c cards IH]; [done|].
  simpl. by rewrite IH.
Qed.

Lemma skipped_faces start cards1 cards2 item :
  faces cards1 = faces cards2 →
  skipped start cards1 item = skipped start cards2 item.
Proof.
  intros Hfaces. unfold skipped. by rewrite !fen_known_faces, Hfaces.
Qed.

Lemma faces_pushed clock cards item :
  faces (cards ++ [pushed clock cards item]) =
  faces cards ++ [(TreeReducer.fen (TreeReducer.node item),
                   default EmptyString (firstChildSan (TreeReducer.node item)))].
Proof. unfold faces. by rewrite fmap_app. Qed.

(** The clock has no say in which nodes become cards, nor in what they
    show. *)
Lemma buildLoop_faces clock1 clock2 color start items : ∀ cards1 cards2,
  faces cards1 = faces cards2 →
  faces (buildLoop clock1 color start items cards1)
  = faces (buildLoop clock2 color start items cards2).
Proof.
  induction items as [|item items IH]; intros cards1 cards2 Hfaces; simpl; [done|].
  apply IH. unfold buildStep.
  rewrite (skipped_faces start cards1 cards2 item Hfaces).
  destruct (skipped start cards2 item); [done|].
  destruct (sideMatches color item); [|done].
  fold (pushed clock1 cards1 item). fold (pushed clock2 cards2 item).
  by rewrite !faces_pushed, Hfaces.
Qed.

(** The card at index [k] was created at the [k]-th reading of the clock. *)
Lemma buildLoop_schedules clock color start items : ∀ cards,
  (∀ k c, cards !! k = Some c → card c = Fsrs.createEmptyCard (clock k)) →
  ∀ k c, buildLoop clock color start items cards !! k = Some c →
         card c = Fsrs.createEmptyCard (clock k).
Proof.
  induction items as [|item items IH]; intros cards Hcards; simpl; [done|].
  apply IH. intros k c.
  destruct (buildStep_cases clock color start cards item)
    as [->|(_ & _ & ->)]; [apply Hcards|].
  intros Hk. apply lookup_app_Some in Hk as [Hk|[Hlen Hk]]; [by apply Hcards|].
  apply list_lookup_singleton_Some in Hk as [Hk <-].
  simpl. f_equal. f_equal. lia.
Qed.

Lemma buildLoop_same_schedules clock1 clock2 color start items :
  (∀ k, Fsrs.createEmptyCard (clock1 k) = Fsrs.createEmptyCard (clock2 k)) →
  ∀ cards, buildLoop clock1 color start items cards
           = buildLoop clock2 color start items cards.
Proof.
  intros Hsame. induction items as [|item items IH]; intros cards; simpl; [done|].
  rewrite IH. f_equal. unfold buildStep. by rewrite Hsame.
Qed.

(** C9, as the code has it.  Two builds of the same tree, side and
    mastered prefix return the same fens and answers in the same order,
    and each card carries the schedule the engine creates at the time the
    card is made.  The two results are identical when the engine creates
    the same schedule at the two times. *)
Theorem buildFromTree_deterministic_up_to_clock
    clock1 clock2 (tree : TreeReducer.TreeNode) color start :
  faces (buildFromTree clock1 tree color start)
  = faces (buildFromTree clock2 tree color start)
  ∧ (∀ k c, buildFromTree clock1 tree color start !! k = Some c →
            card c = Fsrs.createEmptyCard (clock1 k))
  ∧ ((∀ k, Fsrs.createEmptyCard (clock1 k) = Fsrs.createEmptyCard (clock2 k)) →
     buildFromTree clock1 tree color start = buildFromTree clock2 tree color start).
Proof.
  split; [|split].
  - by apply buildLoop_faces.
  - by apply buildLoop_schedules.
  - intros Hsame. by apply buildLoop_same_schedules.
Qed.

End BuildProperties.

(** The eighth node visited in [transpositionTree] has the fen of the
    fourth, which is a card of the black deck by then. *)
Lemma buildFromTree_fen_unique_witness :
  ∃ item,
    transpositionItems !! 7%nat = Some item
    ∧ TreeReducer.treeIterator transpositionTree
      = take 7 transpositionItems ++ item :: drop 8 transpositionItems
    ∧ buildLoop (engine := dayEngine) (clockAt 1000) black []
        (take 7 transpositionItems ++ [item]) []
      = buildLoop (clockAt 1000) black [] (take 7 transpositionItems) [].
Proof.
  eexists. split; [reflexivity|]. split; [reflexivity|].
  destruct (buildFromTree_fen_unique (engine := dayEngine)
              (clockAt 1000) transpositionTree black []) as [_ Hfirst].
  apply (Hfirst (take 7 transpositionItems) _ (drop 8 transpositionItems)
           eq_refl).
  vm_compute. apply list_elem_of_In. simpl. auto.
Defined.

(** In [sampleTree] with mastered path [0]: the node at [0] would suit a
    black deck and is left out; the node at [0; 0] extends the mastered
    path and is pushed to a white deck. *)
Lemma buildFromTree_prefix_exclusion_direction_witness :
  ∃ mastered deeper,
    sampleItems !! 1%nat = Some mastered
    ∧ sampleItems !! 2%nat = Some deeper
    ∧ Misc.isPrefix (TreeReducer.position mastered) [0%nat] = true
    ∧ buildLoop (engine := dayEngine) (clockAt 1000) black [0%nat]
        (take 1 sampleItems ++ [mastered]) []
      = buildLoop (clockAt 1000) black [0%nat] (take 1 sampleItems) []
    ∧ Misc.isPrefix [0%nat] (TreeReducer.position deeper) = true
    ∧ TreeReducer.position deeper ≠ [0%nat]
    ∧ buildLoop (engine := dayEngine) (clockAt 1000) white [0%nat]
        (take 2 sampleItems ++ [deeper]) []
      = [ @mkPosition dayEngine "after e4 e5" "Nf3" (mkDayCard 1000 0) ].
Proof.
  eexists _, _. split; [reflexivity|]. split; [reflexivity|].
  split; [reflexivity|]. split; [|split; [reflexivity|split; [by vm_compute|]]].
  - destruct (buildFromTree_prefix_exclusion_direction (engine := dayEngine)
                (clockAt 1000) sampleTree black [0%nat]) as [Hstep _].
    apply (Hstep (take 1 sampleItems) _ (drop 2 sampleItems) eq_refl).
    reflexivity.
  - destruct (buildFromTree_prefix_exclusion_direction (engine := dayEngine)
                (clockAt 1000) sampleTree white [0%nat]) as [Hstep _].
    destruct (Hstep (take 2 sampleItems) _ (drop 3 sampleItems) eq_refl)
      as [_ Hdeeper].
    destruct (Hdeeper eq_refl) as [_ Hpush]; [by vm_compute|].
    rewrite Hpush; [reflexivity|by vm_compute|reflexivity| |reflexivity].
    vm_compute. apply not_elem_of_nil.
Defined.

(** The same tree built at time 1000 and at time 2000: the cards differ in
    their due time. *)
Lemma buildFromTree_identical_schedules_counterexample :
  buildFromTree (engine := dayEngine) (clockAt 1000) sampleTree white []
  ≠ buildFromTree (engine := dayEngine) (clockAt 2000) sampleTree white [].
Proof. by vm_compute. Qed.

(** Two builds whose clocks read the same times. *)
Lemma buildFromTree_deterministic_up_to_clock_witness :
  (∀ k, Fsrs.createEmptyCard (Engine := dayEngine) (clockAt 1000 k)
        = Fsrs.createEmptyCard (Engine := dayEngine) (clockAt 400 k + 600))
  ∧ buildFromTree (engine := dayEngine) (clockAt 1000) sampleTree white []
    = buildFromTree (engine := dayEngine) (fun k => clockAt 400 k + 600)
        sampleTree white [].
Proof.
  assert (∀ k, Fsrs.createEmptyCard (Engine := dayEngine) (clockAt 1000 k)
               = Fsrs.createEmptyCard (Engine := dayEngine) (clockAt 400 k + 600))
    as Hclock.
  { intros k. simpl. f_equal. unfold clockAt. lia. }
  split; [exact Hclock|].
  exact (proj2 (proj2 (buildFromTree_deterministic_up_to_clock (engine := dayEngine)
                         (clockAt 1000) (fun k => clockAt 400 k + 600)
                         sampleTree white [])) Hclock).
Defined.

(** * Further properties of the code *)

(** ** Stats: the next due date, and the Next button *)

Section MoreStats.

Context `{engine : Fsrs.Engine}.

Lemma statsStep_nextDue now stats c :
  Stats.nextDue (statsStep now stats c) =
  if (Fsrs.reps (card c) =? 0)%N then Stats.nextDue stats
  else Some (match Stats.nextDue stats with
             | None => Fsrs.due (card c)
             | Some m => if Fsrs.due (card c) <? m then Fsrs.due (card c) else m
             end).
Proof.
  unfold statsStep. destruct (Fsrs.reps (card c) =? 0)%N; [done|].
  destruct (Fsrs.due (card c) <=? now); simpl;
    destruct (Stats.nextDue stats); try done;
    by destruct (Fsrs.due (card c) <? z).
Qed.

(** The loop keeps in [nextDue] the least due date met so far among the
    cards with [reps ≠ 0]. *)
Lemma statsLoop_nextDue now cards : ∀ stats,
  match Stats.nextDue (fold_left (statsStep now) cards stats) with
  | None =>
      Stats.nextDue stats = None
      ∧ Forall (fun c => Fsrs.reps (card c) = 0%N) cards
  | Some d =>
      (Stats.nextDue stats = Some d
       ∨ ∃ c, c ∈ cards ∧ Fsrs.reps (card c) ≠ 0%N ∧ Fsrs.due (card c) = d)
      ∧ (∀ m, Stats.nextDue stats = Some m → d ≤ m)
      ∧ Forall (fun c => Fsrs.reps (card c) ≠ 0%N → d ≤ Fsrs.due (card c)) cards
  end.
Proof.
  induction cards as [|c cards IH]; intros stats; simpl.
  - destruct (Stats.nextDue stats) as [d|]; [|done].
    split; [by left|]. split; [|done]. intros m [= ->]. lia.
  - specialize (IH (statsStep now stats c)).
    rewrite statsStep_nextDue in IH.
    destruct (Stats.nextDue (fold_left _ cards _)) as [d|].
    + destruct IH as (Hfrom & Hle & Hall).
      destruct (N.eqb_spec (Fsrs.reps (card c)) 0) as [Hr|Hr].
      * split; [|split].
        -- destruct Hfrom as [?|(c' & ? & ? & ?)]; [by left|].
           right. exists c'. split; [by right|done].
        -- done.
        -- by constructor.
      * assert (d ≤ Fsrs.due (card c)
                ∧ ∀ m, Stats.nextDue stats = Some m → d ≤ m) as [Hc Hm].
        { destruct (Stats.nextDue stats) as [m|].
          - destruct (Z.ltb_spec (Fsrs.due (card c)) m);
              specialize (Hle _ eq_refl); split; try lia;
              intros m' [= <-]; lia.
          - specialize (Hle _ eq_refl). split; [lia|done]. }
        split; [|split].
        -- destruct Hfrom as [Hd|(c' & ? & ? & ?)].
           ++ destruct (Stats.nextDue stats) as [m|].
              ** destruct (Z.ltb_spec (Fsrs.due (card c)) m);
                   injection Hd as <-; [|by left].
                 right. exists c. split; [by left|done].
              ** injection Hd as <-. right. exists c. split; [by left|done].
           ++ right. exists c'. split; [by right|done].
        -- done.
        -- by constructor.
    + destruct IH as (Hnone & Hall).
      destruct (N.eqb_spec (Fsrs.reps (card c)) 0) as [Hr|Hr]; [|done].
      split; [done|]. by constructor.
Qed.

(** X1.  [getStats] reports no [nextDue] exactly when every card is unseen;
    otherwise [nextDue] is the earliest due date among the cards that have
    been reviewed, whether that date is past or to come. *)
Theorem getStats_nextDue_is_earliest_reviewed (cards : list Position) (now : Z) :
  match Stats.nextDue (getStats cards now) with
  | None => Forall (fun c => Fsrs.reps (card c) = 0%N) cards
  | Some d =>
      (∃ c, c ∈ cards ∧ Fsrs.reps (card c) ≠ 0%N ∧ Fsrs.due (card c) = d)
      ∧ Forall (fun c => Fsrs.reps (card c) ≠ 0%N → d ≤ Fsrs.due (card c)) cards
  end.
Proof.
  unfold getStats.
  pose proof (statsLoop_nextDue now cards
                (Stats.mk 0 0 0 None (length cards))) as Hloop.
  destruct (Stats.nextDue (fold_left _ cards _)) as [d|].
  - destruct Hloop as ([Hinit|Hfrom] & _ & Hall); [done|]. by split.
  - by destruct Hloop.
Qed.

Lemma inBucket_zero now b (cards : list Position) :
  inBucket now b cards = 0%nat → Forall (fun c => bucketOf now c ≠ b) cards.
Proof.
  unfold inBucket. intros Hlen.
  apply (filter_none (fun c => bucketOf now c = b)).
  by apply nil_length_inv.
Qed.

Lemma inBucket_positive now b (cards : list Position) :
  (0 < inBucket now b cards)%nat → ∃ c, c ∈ cards ∧ bucketOf now c = b.
Proof.
  unfold inBucket. intros Hlen.
  destruct (filter _ cards) as [|c rest] eqn:Hf; [simpl in Hlen; lia|].
  assert (c ∈ filter (fun c => bucketOf now c = b) cards) as Hin
    by (rewrite Hf; by left).
  apply list_elem_of_filter in Hin as [? ?]. by exists c.
Qed.

(** X2.  The Next and Skip buttons are disabled only when there is no card to
    pick: with [stats.due = 0] and [stats.unseen = 0], [getCardForReview]
    answers [null] at the same time; and with [stats.due > 0] it answers
    a card of the deck. *)
Theorem nextDisabled_means_no_card_for_review
    (cards : list Position) (rnd : Q) (now : Z) :
  (nextDisabled (getStats cards now) = true →
   getCardForReview cards None rnd now = JsNull)
  ∧ ((0 < Stats.due (getStats cards now))%nat →
     ∃ c, c ∈ cards ∧ getCardForReview cards None rnd now = JsValue c).
Proof.
  unfold getStats.
  destruct (statsLoop_counts now cards
              (Stats.mk 0 0 0 None (length cards))) as (Hu & Hd & _ & _).
  simpl in Hu, Hd. rewrite getCardForReview_deterministic_eq by done. split.
  - unfold nextDisabled. rewrite Hu, Hd.
    intros [Hdue Hunseen]%andb_prop.
    apply Nat.eqb_eq, inBucket_zero in Hdue, Hunseen.
    assert (filter (fun p => Fsrs.due (card p) ≤ now) cards = []) as ->; [|done].
    apply filter_none. apply Forall_forall. intros c Hc.
    rewrite Forall_forall in Hdue, Hunseen.
    specialize (Hdue c Hc). specialize (Hunseen c Hc).
    destruct (bucketOf_cases now c) as [[_ Hb]|[(_ & _ & Hb)|(_ & Hlate & _)]];
      [done|done|].
    apply Z.leb_gt in Hlate. lia.
  - rewrite Hd. intros Hpos.
    apply inBucket_positive in Hpos as (c & Hc & Hb).
    destruct (filter (fun p => Fsrs.due (card p) ≤ now) cards) as [|c' rest] eqn:Hf.
    + apply filter_none in Hf. rewrite Forall_forall in Hf.
      destruct (Hf c Hc).
      destruct (bucketOf_cases now c) as [[_ Hb']|[(_ & Hdue & _)|(_ & _ & Hb')]];
        [congruence| |congruence].
      by apply Z.leb_le.
    + exists c'. split; [|done].
      assert (c' ∈ filter (fun p => Fsrs.due (card p) ≤ now) cards) as Hin
        by (rewrite Hf; by left).
      by apply list_elem_of_filter in Hin as [_ ?].
Qed.

(** X3.  In random mode, on a deck with at least one card and with
    [Math.random()] in its range [0, 1), [getCardForReview] answers a card
    of the deck, never [undefined] or [null]. *)
Theorem getCardForReview_random_picks_a_card
    (cards : list Position) (rnd : Q) (now : Z) :
  cards ≠ [] → (0 <= rnd)%Q → (rnd < 1)%Q →
  ∃ c, c ∈ cards
    ∧ getCardForReview cards (Some {| random := true |}) rnd now = JsValue c.
Proof.
  intros Hne Hlo Hhi. unfold getCardForReview. cbn [default random].
  set (n := Z.of_nat (length cards)).
  assert (0 < n) as Hn by (destruct cards; [done|simpl in n; lia]).
  assert (0 ≤ Qfloor (rnd * inject_Z n) < n) as Hrange.
  { split.
    - change 0 with (Qfloor 0). apply Qfloor_resp_le.
      apply Qmult_le_0_compat; [done|]. change 0%Q with (inject_Z 0).
      rewrite <- Zle_Qle. lia.
    - rewrite Zlt_Qlt. eapply Qle_lt_trans; [apply Qfloor_le|].
      rewrite <- (Qmult_1_l (inject_Z n)) at 2.
      apply Qmult_lt_compat_r; [|done].
      change 0%Q with (inject_Z 0). rewrite <- Zlt_Qlt. lia. }
  unfold js_index.
  destruct (Z.leb_spec 0 (Qfloor (rnd * inject_Z n))) as [_|]; [|lia].
  destruct (cards !! Z.to_nat (Qfloor (rnd * inject_Z n))) as [c|] eqn:Hc.
  - exists c. split; [|done]. by eapply list_elem_of_lookup_2.
  - apply lookup_ge_None in Hc. lia.
Qed.

End MoreStats.

(** ** More on building the deck *)

Section MoreBuild.

Context `{engine : Fsrs.Engine}.

Lemma sideMatches_parity color item :
  sideMatches color item = true →
  match color with
  | white => Z.Even (TreeReducer.halfMoves (TreeReducer.node item))
  | black => Z.Odd (TreeReducer.halfMoves (TreeReducer.node item))
  end.
Proof.
  unfold sideMatches.
  pose proof (Z.quot_rem' (TreeReducer.halfMoves (TreeReducer.node item)) 2) as Hdiv.
  destruct color; intros Hrem%Z.eqb_eq; rewrite Hrem in Hdiv;
    exists (TreeReducer.halfMoves (TreeReducer.node item) ÷ 2); lia.
Qed.

(** X4.  Every card of the result comes from a visited node that has a
    continuation and where the requested side is to move (an even ply for a
    white deck, an odd ply for a black one); its fen is the node's and its
    answer is the move of the node's first child, which is not empty. *)
Theorem buildFromTree_cards_have_side_and_answer
    (clock : nat → Z) (tree : TreeReducer.TreeNode) (color : Color) (start : list nat) :
  Forall (fun c => ∃ item first,
            item ∈ TreeReducer.treeIterator tree
            ∧ head (TreeReducer.children (TreeReducer.node item)) = Some first
            ∧ fen c = TreeReducer.fen (TreeReducer.node item)
            ∧ TreeReducer.san first = Some (answer c)
            ∧ answer c ≠ EmptyString
            ∧ match color with
              | white => Z.Even (TreeReducer.halfMoves (TreeReducer.node item))
              | black => Z.Odd (TreeReducer.halfMoves (TreeReducer.node item))
              end)
    (buildFromTree clock tree color start).
Proof.
  apply buildLoop_invariant; [|constructor].
  intros item seen Hin Hskip Hside.
  apply skipped_false in Hskip as (Hchildren & _ & Hsan & _).
  apply sideMatches_parity in Hside.
  unfold pushed, firstChildSan in *. simpl.
  destruct (TreeReducer.children (TreeReducer.node item))
    as [|first rest] eqn:Hcs; [done|].
  simpl in *. exists item, first. rewrite Hcs.
  destruct (TreeReducer.san first) as [s|]; [|done]. simpl in *.
  repeat split; try done.
  intros ->. done.
Qed.

Lemma buildStep_covers clock color start cards item :
  TreeReducer.children (TreeReducer.node item) ≠ [] →
  Misc.isPrefix (TreeReducer.position item) start = false →
  truthy (firstChildSan (TreeReducer.node item)) = true →
  sideMatches color item = true →
  TreeReducer.fen (TreeReducer.node item)
    ∈ fen <$> buildStep clock color start cards item.
Proof.
  intros Hchildren Hnot Hsan Hside. unfold buildStep.
  destruct (skipped start cards item) eqn:Hskip.
  - destruct (decide (TreeReducer.fen (TreeReducer.node item) ∈ fen <$> cards))
      as [|Hfresh]; [done|].
    by rewrite (proj2 (skipped_false start cards item)) in Hskip.
  - rewrite Hside, fmap_app, elem_of_app. right. simpl. by left.
Qed.

Lemma buildLoop_keeps_fens clock color start items cards (f : string) :
  f ∈ fen <$> cards → f ∈ fen <$> buildLoop clock color start items cards.
Proof.
  intros Hf.
  destruct (buildLoop_extends clock color start items cards) as [more ->].
  rewrite fmap_app, elem_of_app. by left.
Qed.

(** X5.  No position that can be asked is lost: when a visited node has a
    continuation with a move, is not on the mastered path and has the
    requested side to move, the deck holds a card with the node's fen (made
    from that node or from an earlier one with the same fen). *)
Theorem buildFromTree_covers_every_eligible_node
    (clock : nat → Z) (tree : TreeReducer.TreeNode) (color : Color) (start : list nat)
    (item : TreeReducer.Item) :
  item ∈ TreeReducer.treeIterator tree →
  TreeReducer.children (TreeReducer.node item) ≠ [] →
  Misc.isPrefix (TreeReducer.position item) start = false →
  truthy (firstChildSan (TreeReducer.node item)) = true →
  sideMatches color item = true →
  TreeReducer.fen (TreeReducer.node item)
    ∈ fen <$> buildFromTree clock tree color start.
Proof.
  intros Hin Hchildren Hnot Hsan Hside. unfold buildFromTree.
  apply list_elem_of_split in Hin as (before & after & ->).
  change (before ++ item :: after) with (before ++ [item] ++ after).
  rewrite !buildLoop_app. apply buildLoop_keeps_fens. simpl.
  by apply buildStep_covers.
Qed.

Lemma isPrefix_nil (path : list nat) : Misc.isPrefix [] path = true.
Proof. by destruct path. Qed.

(** X6.  The root is never asked: its path is empty, hence a prefix of every
    mastered path, the empty one included; the deck is built from the other
    nodes alone. *)
Theorem buildFromTree_never_asks_the_root
    (clock : nat → Z) (tree : TreeReducer.TreeNode) (color : Color) (start : list nat) :
  buildFromTree clock tree color start
  = buildLoop clock color start (tail (TreeReducer.treeIterator tree)) [].
Proof.
  assert (buildStep clock color start [] (TreeReducer.mkItem [] tree) = [])
    as Hroot.
  { unfold buildStep, skipped. cbn [TreeReducer.position].
    by rewrite isPrefix_nil, orb_true_r. }
  unfold buildFromTree, TreeReducer.treeIterator.
  destruct tree as [f s h cs]. cbn [TreeReducer.treeIteratorFrom tail].
  unfold buildLoop. cbn [fold_left]. by rewrite Hroot.
Qed.

End MoreBuild.

(** ** More on grading, seeding and reset *)

Section MoreDeck.

Context `{engine : Fsrs.Engine}.

Lemma faces_fens (cards : list Position) : fen <$> cards = (faces cards).*1.
Proof. unfold faces. rewrite <- list_fmap_compose. by apply list_fmap_ext. Qed.

Lemma faces_regraded (cards : list Position) i p newCard :
  cards !! i = Some p →
  faces (<[i := {| fen := fen p; answer := answer p; card := newCard |}]> cards)
  = faces cards.
Proof.
  intros Hp. unfold faces. rewrite list_fmap_insert. simpl.
  apply list_insert_id. by rewrite list_lookup_fmap, Hp.
Qed.

(** What a successful grading has done, read from its result. *)
Lemma updateCardPerformance_Ok_inv st st' i c grade now :
  updateCardPerformance setDeck i c grade now st = Ok st' →
  ∃ p g,
    js_index (positions (current st)) i = Some p
    ∧ Fsrs.grade_of_number grade = Some g
    ∧ st' = publish
        {| positions :=
             <[Z.to_nat i := {| fen := fen p; answer := answer p;
                                card := (Fsrs.repeat c now g).1 |}]>
               (positions (current st));
           logs := logs (current st)
                   ++ [ {| log := (Fsrs.repeat c now g).2; log_fen := fen p |} ] |}
        st.
Proof.
  unfold updateCardPerformance.
  destruct (Fsrs.grade_of_number grade) as [g|] eqn:Hg; [|done].
  destruct (Fsrs.repeat c now g) as [newCard entry] eqn:Hrepeat. simpl.
  unfold performanceUpdater.
  destruct (js_index (positions (current st)) i) as [p|] eqn:Hp; [|done].
  intros [= <-]. exists p, g. by rewrite Hrepeat.
Qed.

Lemma js_index_lookup {A} (arr : list A) i x :
  js_index arr i = Some x → arr !! Z.to_nat i = Some x.
Proof. unfold js_index. by destruct (0 <=? i). Qed.

(** X7.  Grading never changes what a card shows, and only ever adds to the
    logs: whenever [updateCardPerformance] succeeds, the cards have the
    fens and answers of before, in the same order, and the logs are the old
    logs followed by one entry whose fen is that of a card of the deck. *)
Theorem updateCardPerformance_keeps_faces_and_appends
    (st st' : Store) (i : Z) (c : Fsrs.Card) (grade now : Z) :
  updateCardPerformance setDeck i c grade now st = Ok st' →
  faces (positions (current st')) = faces (positions (current st))
  ∧ ∃ entry,
      logs (current st') = logs (current st) ++ [entry]
      ∧ log_fen entry ∈ fen <$> positions (current st).
Proof.
  intros (p & g & Hp%js_index_lookup & _ & ->)%updateCardPerformance_Ok_inv.
  simpl. split; [by apply faces_regraded|].
  eexists. split; [done|]. simpl.
  apply list_elem_of_fmap. exists p. split; [done|].
  by eapply list_elem_of_lookup_2.
Qed.

(** X8.  In every store the panel gets to, no two cards of the deck share a
    fen, and every log entry carries the fen of a card of the deck. *)
Theorem reachable_deck_is_consistent (st : Store) :
  reachable st →
  NoDup (fen <$> positions (current st))
  ∧ Forall (fun entry => log_fen entry ∈ fen <$> positions (current st))
      (logs (current st)).
Proof.
  induction 1 as [|st st' clock root headers _ IH Hseed
                  |st st' i c grade now _ IH Hgrade
                  |st st' clock root headers _ IH Hreset].
  - simpl. split; constructor.
  - unfold seedEffect in Hseed.
    destruct (_ && _) in Hseed; simpl in Hseed; injection Hseed as <-; [|done].
    simpl. split; [|constructor].
    apply buildLoop_NoDup. simpl. constructor.
  - destruct IH as [Hnd Hlogs].
    apply updateCardPerformance_Ok_inv in Hgrade
      as (p & g & Hp%js_index_lookup & _ & ->).
    simpl. rewrite faces_fens, faces_regraded, <- faces_fens by done.
    split; [done|]. apply Forall_app. split; [done|].
    constructor; [|constructor]. simpl.
    apply list_elem_of_fmap. exists p. split; [done|].
    by eapply list_elem_of_lookup_2.
  - injection Hreset as <-. simpl. split; [|constructor].
    apply buildLoop_NoDup. simpl. constructor.
Qed.

End MoreDeck.

Section MoreSeeding.

Context `{engine : Fsrs.Engine}.

(** Whether a build is empty does not depend on the time it is made. *)
Lemma buildFromTree_nil_any_clock clock clock' (tree : TreeReducer.TreeNode)
    (color : Color) (start : list nat) :
  buildFromTree clock tree color start = [] →
  buildFromTree clock' tree color start = [].
Proof.
  intros Hnil.
  pose proof (buildLoop_faces clock clock' color start
                (TreeReducer.treeIterator tree) [] [] eq_refl) as Hfaces.
  fold (buildFromTree clock tree color start) in Hfaces.
  fold (buildFromTree clock' tree color start) in Hfaces.
  rewrite Hnil in Hfaces. symmetry in Hfaces.
  by apply fmap_nil_inv in Hfaces.
Qed.

Lemma seedEffect_cases (st : Store) (clock : nat → Z)
    (root : TreeReducer.TreeNode) (headers : Headers) :
  let newDeck :=
    buildFromTree clock root (default white (orientation headers))
      (default [] (start headers)) in
  (newDeck ≠ [] ∧ positions (current st) = []
   ∧ seedEffect setDeck clock root headers st
     = Ok (publish {| positions := newDeck; logs := [] |} st))
  ∨ ((newDeck = [] ∨ positions (current st) ≠ [])
     ∧ seedEffect setDeck clock root headers st = Ok st).
Proof.
  intros newDeck. unfold seedEffect. fold newDeck.
  destruct newDeck as [|c newDeck']; [right; by split; [left|]|].
  destruct (positions (current st)) as [|p ps]; simpl.
  - left. by repeat split.
  - right. by split; [right|].
Qed.

(** X9.  The seeding effect never throws and settles after one run: run again
    on the store it leaves, with the same tree and headers and at whatever
    time, it publishes nothing.  (The effect depends on [deck], so React
    runs it again after each [setDeck].) *)
Theorem seedEffect_settles_after_one_run
    (st : Store) (clock clock' : nat → Z)
    (root : TreeReducer.TreeNode) (headers : Headers) :
  ∃ st', seedEffect setDeck clock root headers st = Ok st'
    ∧ seedEffect setDeck clock' root headers st' = Ok st'.
Proof.
  destruct (seedEffect_cases st clock root headers)
    as [(Hbuilt & _ & ->)|([Hnil|Hfull] & ->)]; eexists; (split; [done|]).
  - destruct (seedEffect_cases
                (publish {| positions := buildFromTree clock root
                              (default white (orientation headers))
                              (default [] (start headers));
                            logs := [] |} st) clock' root headers)
      as [(_ & Hempty & _)|(_ & ->)]; [|done].
    simpl in Hempty. by destruct Hbuilt.
  - destruct (seedEffect_cases st clock' root headers)
      as [(Hbuilt & _ & _)|(_ & ->)]; [|done].
    destruct Hbuilt. by apply (buildFromTree_nil_any_clock clock).
  - destruct (seedEffect_cases st clock' root headers)
      as [(_ & Hempty & _)|(_ & ->)]; [|done].
    by destruct Hfull.
Qed.

(** X10.  Reset discards the logs and every schedule: the new deck is a fresh
    build with no logs, whatever the deck was.  The seeding effect that
    React runs next leaves it alone, also when the fresh build is empty. *)
Theorem resetDeck_then_seedEffect
    (st : Store) (clock clock' : nat → Z)
    (root : TreeReducer.TreeNode) (headers : Headers) :
  ∃ st', resetDeck setDeck clock root headers st = Ok st'
    ∧ positions (current st')
      = buildFromTree clock root (default white (orientation headers))
          (default [] (start headers))
    ∧ logs (current st') = []
    ∧ past st' = current st :: past st
    ∧ seedEffect setDeck clock' root headers st' = Ok st'.
Proof.
  eexists. split; [reflexivity|]. simpl. repeat split.
  destruct (seedEffect_cases
              (publish {| positions := buildFromTree clock root
                            (default white (orientation headers))
                            (default [] (start headers));
                          logs := [] |} st) clock' root headers)
    as [(Hbuilt & Hempty & _)|(_ & ->)]; [|done].
  simpl in Hempty. destruct Hbuilt.
  by apply (buildFromTree_nil_any_clock clock).
Qed.

(** *** The Skip button *)

Lemma findIndexFrom_spec k (f : string) (cards : list Position) :
  (findIndexFrom k f cards = -1 ∧ f ∉ (fen <$> cards))
  ∨ ∃ i p, findIndexFrom k f cards = Z.of_nat (k + i)
      ∧ cards !! i = Some p
      ∧ fen p = f
      ∧ Forall (fun q => fen q ≠ f) (take i cards).
Proof.
  revert k. induction cards as [|c cards IH]; intros k; simpl.
  - left. split; [done|]. apply not_elem_of_nil.
  - destruct (String.eqb_spec (fen c) f) as [Hc|Hc].
    + right. exists 0%nat, c. rewrite Nat.add_0_r. by repeat split.
    + destruct (IH (S k)) as [[Hnone Hnot]|(i & p & Hi & Hp & Hf & Hbefore)].
      * left. split; [done|]. rewrite not_elem_of_cons. by split.
      * right. exists (S i), p. rewrite Hi. repeat split; try done.
        -- f_equal. lia.
        -- simpl. by constructor.
Qed.

(** X11.  Skip never throws.  When no card has the fen shown on the board, the
    deck is left as it is; otherwise the first card with that fen is graded
    2 on its own schedule: one state is published, with that card
    rescheduled and one log entry added for the fen. *)
Theorem skipClicked_grades_the_shown_card
    (st : Store) (currentFen : string) (now : Z) :
  (¬ (currentFen ∈ fen <$> positions (current st))
   ∧ skipClicked setDeck currentFen now st = Ok st)
  ∨ ∃ i p,
      positions (current st) !! i = Some p
      ∧ fen p = currentFen
      ∧ Forall (fun q => fen q ≠ currentFen) (take i (positions (current st)))
      ∧ skipClicked setDeck currentFen now st
        = Ok (publish
                {| positions :=
                     <[i := {| fen := fen p; answer := answer p;
                               card := (Fsrs.repeat (card p) now Fsrs.Hard).1 |}]>
                       (positions (current st));
                   logs := logs (current st)
                           ++ [ {| log := (Fsrs.repeat (card p) now Fsrs.Hard).2;
                                   log_fen := currentFen |} ] |}
                st).
Proof.
  unfold skipClicked, findIndex.
  destruct (findIndexFrom_spec 0 currentFen (positions (current st)))
    as [[-> Hnot]|(i & p & -> & Hp & Hf & Hbefore)].
  - left. by split.
  - right. exists i, p. repeat split; try done.
    simpl. destruct (Z.eqb_spec (Z.of_nat i) (-1)); [lia|].
    unfold js_index. destruct (Z.leb_spec 0 (Z.of_nat i)); [|lia].
    rewrite Nat2Z.id, Hp.
    unfold updateCardPerformance. simpl.
    destruct (Fsrs.repeat (card p) now Fsrs.Hard) as [newCard entry]. simpl.
    unfold performanceUpdater, js_index.
    destruct (Z.leb_spec 0 (Z.of_nat i)); [|lia].
    rewrite Nat2Z.id, Hp, Hf. done.
Qed.

End MoreSeeding.

(** ** The board: finding and reaching the card's position *)

Lemma isCurrentPositionValid_lookups (startPosition targetPosition : list nat) :
  isCurrentPositionValid startPosition targetPosition = true ↔
    (length startPosition ≤ length targetPosition)%nat
    ∧ ∀ i, (i < length startPosition)%nat → startPosition !! i = targetPosition !! i.
Proof.
  unfold isCurrentPositionValid.
  destruct (Nat.ltb_spec (length targetPosition) (length startPosition)).
  - split; [done|]. intros [? _]. lia.
  - rewrite forallb_forall. split.
    + intros Hall. split; [done|]. intros i Hi.
      specialize (Hall i). rewrite bool_decide_eq_true in Hall.
      apply Hall, in_seq. lia.
    + intros [_ Hall] i Hi%in_seq. apply bool_decide_eq_true, Hall. lia.
Qed.

Lemma isCurrentPositionValid_take (startPosition targetPosition : list nat) :
  isCurrentPositionValid startPosition targetPosition = true →
  take (length startPosition) targetPosition = startPosition.
Proof.
  intros [Hlen Hall]%isCurrentPositionValid_lookups.
  apply list_eq. intros i.
  destruct (decide (i < length startPosition)%nat) as [Hi|Hi].
  - rewrite lookup_take_lt by done. symmetry. by apply Hall.
  - rewrite lookup_take_ge by lia. symmetry. apply lookup_ge_None. lia.
Qed.

(** X12.  The inline check of [newPractice] answers true exactly when the path
    the board is at is a prefix of the target path, the target itself and
    the empty path included; a longer path or a path that leaves the target
    line is rejected. *)
Theorem isCurrentPositionValid_iff_prefix (startPosition targetPosition : list nat) :
  isCurrentPositionValid startPosition targetPosition = true
  ↔ ∃ rest, targetPosition = startPosition ++ rest.
Proof.
  split.
  - intros Hvalid. exists (drop (length startPosition) targetPosition).
    rewrite <- (isCurrentPositionValid_take _ _ Hvalid) at 1.
    by rewrite take_drop.
  - intros [rest ->]. apply isCurrentPositionValid_lookups.
    rewrite length_app. split; [lia|].
    intros i Hi. by rewrite lookup_app_l.
Qed.

Section MoreBoard.

Context `{engine : Fsrs.Engine}.

Lemma fenToPositionLoop_lookup findFen (root : TreeReducer.TreeNode)
    (cards : list Position) (f : string) : ∀ map : gmap string (list nat),
  fold_left (fenToPositionStep findFen root) cards map !! f =
  match map !! f with
  | Some path => Some path
  | None => if decide (f ∈ fen <$> cards) then Some (findFen f root) else None
  end.
Proof.
  induction cards as [|c cards IH]; intros map; cbn [fold_left].
  - destruct (map !! f); [done|].
    rewrite decide_False; [done|]. rewrite fmap_nil. apply not_elem_of_nil.
  - rewrite IH, fmap_cons. unfold fenToPositionStep. case_bool_decide as Hhas.
    + destruct (map !! f) eqn:Hf; [done|].
      apply decide_ext. rewrite elem_of_cons.
      split; [tauto|]. intros [->|?]; [|done].
      rewrite Hf in Hhas. by destruct Hhas.
    + destruct (decide (fen c = f)) as [<-|Hne].
      * rewrite lookup_insert_eq.
        destruct (map !! fen c) eqn:Hf; [destruct Hhas; eauto|].
        rewrite decide_True; [done|]. by left.
      * rewrite lookup_insert_ne by done.
        destruct (map !! f); [done|].
        apply decide_ext. rewrite elem_of_cons. split; [tauto|].
        intros [?|?]; [congruence|done].
Qed.

(** X13.  The [fenToPosition] memo has an entry for exactly the fens of the
    deck, and the entry of a fen is the path [findFen] gives for it. *)
Theorem fenToPosition_lookup findFen (cards : list Position)
    (root : TreeReducer.TreeNode) (f : string) :
  fenToPosition findFen cards root !! f =
  if decide (f ∈ fen <$> cards) then Some (findFen f root) else None.
Proof.
  unfold fenToPosition. rewrite fenToPositionLoop_lookup.
  by rewrite lookup_empty.
Qed.

End MoreBoard.

(** *** The animation *)

Section Animation.

Variable getNodeAtPath : TreeReducer.TreeNode → list nat → option TreeReducer.TreeNode.
Variable root : TreeReducer.TreeNode.

Lemma goToMoves_app (events events' : list UiEvent) :
  goToMoves (events ++ events') = goToMoves events ++ goToMoves events'.
Proof. unfold goToMoves. apply omap_app. Qed.

Lemma boardAfter_app (events events' : list UiEvent) (position : list nat) :
  boardAfter (events ++ events') position
  = boardAfter events' (boardAfter events position).
Proof. unfold boardAfter. apply fold_left_app. Qed.

(** While steps are left, the callback moves the board one move further
    along the target path; a sound may follow, nothing else. *)
Lemma tick_moving (a : Animation) :
  (currentStep a < length (targetPosition a))%nat →
  ∃ sound,
    tick getNodeAtPath root (Some a)
    = (GoToMove (take (S (currentStep a)) (targetPosition a)) :: sound,
       Some {| targetPosition := targetPosition a;
               currentStep := S (currentStep a);
               animationDelay := animationDelay a |})
    ∧ goToMoves sound = []
    ∧ ∀ position, boardAfter sound position = position.
Proof.
  intros Hlt. unfold tick.
  destruct (Nat.ltb_spec (currentStep a) (length (targetPosition a))); [|lia].
  eexists. split; [reflexivity|].
  destruct (getNodeAtPath root _) as [node|]; [|done].
  by destruct (truthy (TreeReducer.san node)).
Qed.

Lemma tick_finishing (a : Animation) :
  (length (targetPosition a) ≤ currentStep a)%nat →
  tick getNodeAtPath root (Some a)
  = ([ClearInterval; SetIsAnimating false; SetInvisible true], None).
Proof.
  intros Hge. unfold tick.
  by destruct (Nat.ltb_spec (currentStep a) (length (targetPosition a))); [lia|].
Qed.

Lemma runTicks_add n m (ref : option Animation) :
  runTicks getNodeAtPath root (n + m) ref =
  let '(events, ref') := runTicks getNodeAtPath root n ref in
  let '(events', ref'') := runTicks getNodeAtPath root m ref' in
  (events ++ events', ref'').
Proof.
  revert ref. induction n as [|n IH]; intros ref; simpl.
  - by destruct (runTicks getNodeAtPath root m ref).
  - destruct (tick getNodeAtPath root ref) as [events0 ref0].
    rewrite IH.
    destruct (runTicks getNodeAtPath root n ref0) as [events1 ref1].
    destruct (runTicks getNodeAtPath root m ref1) as [events2 ref2].
    by rewrite app_assoc.
Qed.

Lemma runTicks_moving n : ∀ a : Animation,
  (currentStep a + n ≤ length (targetPosition a))%nat →
  ∃ events,
    runTicks getNodeAtPath root n (Some a)
    = (events, Some {| targetPosition := targetPosition a;
                       currentStep := currentStep a + n;
                       animationDelay := animationDelay a |})
    ∧ goToMoves events
      = (fun k => take k (targetPosition a)) <$> seq (S (currentStep a)) n
    ∧ ∀ position,
        boardAfter events position
        = match n with
          | O => position
          | S _ => take (currentStep a + n) (targetPosition a)
          end.
Proof.
  induction n as [|n IH]; intros a Hle.
  - exists []. simpl. rewrite Nat.add_0_r. by destruct a.
  - destruct (tick_moving a) as (sound & Htick & Hquiet & Hstill); [lia|].
    destruct (IH {| targetPosition := targetPosition a;
                    currentStep := S (currentStep a);
                    animationDelay := animationDelay a |})
      as (events & Hrun & Hmoves & Hboard); [simpl; lia|].
    simpl in Hrun, Hmoves, Hboard.
    exists ((GoToMove (take (S (currentStep a)) (targetPosition a)) :: sound)
            ++ events).
    cbn [runTicks]. rewrite Htick, Hrun. split; [|split].
    + do 3 f_equal. lia.
    + rewrite goToMoves_app, Hmoves.
      change (goToMoves (GoToMove ?p :: sound)) with (p :: goToMoves sound).
      by rewrite Hquiet.
    + intros position. rewrite boardAfter_app, Hboard.
      destruct n as [|n'].
      * change (boardAfter (GoToMove ?p :: sound) position)
          with (boardAfter sound p).
        rewrite Hstill. f_equal. lia.
      * f_equal. lia.
Qed.

(** X14.  A running animation walks the target path one move at a time and
    stops on it: from step [k] it calls [goToMove] with the prefixes of
    length [k + 1] up to the full target, in this order, and the call
    after the last one clears the interval, ends the animating state and
    hides the answer. *)
Theorem animation_walks_to_the_target (a : Animation) (position : list nat) :
  (currentStep a ≤ length (targetPosition a))%nat →
  position = take (currentStep a) (targetPosition a) →
  let n := (length (targetPosition a) - currentStep a)%nat in
  ∃ events,
    runTicks getNodeAtPath root (n + 1) (Some a)
    = (events ++ [ClearInterval; SetIsAnimating false; SetInvisible true], None)
    ∧ goToMoves events
      = (fun k => take k (targetPosition a)) <$> seq (S (currentStep a)) n
    ∧ boardAfter events position = targetPosition a.
Proof.
  intros Hle Hpos n.
  destruct (runTicks_moving n a) as (events & Hrun & Hmoves & Hboard);
    [unfold n; lia|].
  exists events. rewrite runTicks_add, Hrun. cbn [runTicks].
  rewrite tick_finishing by (simpl; unfold n; lia).
  split; [done|]. split; [done|].
  rewrite Hboard. destruct n as [|n'] eqn:Hn.
  - rewrite Hpos. apply take_ge. lia.
  - apply take_ge. lia.
Qed.

End Animation.

Section NewPractice.

Context `{engine : Fsrs.Engine}.

Variable getNodeAtPath : TreeReducer.TreeNode → list nat → option TreeReducer.TreeNode.
Variable root : TreeReducer.TreeNode.

Lemma take_prefix_of (k : nat) (path : list nat) : take k path `prefix_of` path.
Proof. exists (drop k path). by rewrite take_drop. Qed.

(** The plan without animation: the board jumps to the target. *)
Lemma immediate_plan_ends (cleared : list UiEvent) (target position : list nat) :
  goToMoves cleared = [] →
  (∀ p, boardAfter cleared p = p) →
  ∃ n events,
    runTicks getNodeAtPath root n None = (events, None)
    ∧ boardAfter ((cleared ++ [GoToMove target; SetInvisible true]) ++ events)
        position = target
    ∧ last ((cleared ++ [GoToMove target; SetInvisible true]) ++ events)
      = Some (SetInvisible true)
    ∧ Forall (fun p => p `prefix_of` target)
        (goToMoves ((cleared ++ [GoToMove target; SetInvisible true]) ++ events)).
Proof.
  intros Hquiet Hstill. exists 0%nat, []. split; [done|].
  rewrite app_nil_r. split; [|split].
  - by rewrite boardAfter_app, Hstill.
  - change [GoToMove target; SetInvisible true]
      with ([GoToMove target] ++ [SetInvisible true]).
    by rewrite app_assoc, last_snoc.
  - rewrite goToMoves_app, Hquiet. cbn. by constructor.
Qed.

(** The plan with animation: the board is put on a prefix of the target
    and the interval walks it to the target. *)
Lemma animated_plan_ends (cleared : list UiEvent) (target position : list nat)
    (delay : Z) :
  goToMoves cleared = [] →
  (∀ p, boardAfter cleared p = p) →
  let isValid := isCurrentPositionValid position target in
  let startPosition := if isValid then position else [] in
  let events0 :=
    cleared ++ (if isValid then [] else [GoToMove []])
      ++ [SetIsAnimating true; SetInterval delay] in
  ∃ n events,
    runTicks getNodeAtPath root n
      (Some {| targetPosition := target;
               currentStep := length startPosition;
               animationDelay := delay |}) = (events, None)
    ∧ boardAfter (events0 ++ events) position = target
    ∧ last (events0 ++ events) = Some (SetInvisible true)
    ∧ Forall (fun p => p `prefix_of` target) (goToMoves (events0 ++ events)).
Proof.
  intros Hquiet Hstill isValid startPosition events0.
  assert (take (length startPosition) target = startPosition
          ∧ (length startPosition ≤ length target)%nat) as [Hstart Hlen].
  { unfold startPosition. destruct isValid eqn:Hvalid.
    - split; [by apply isCurrentPositionValid_take|].
      by apply isCurrentPositionValid_lookups in Hvalid as [? _].
    - split; [done|simpl; lia]. }
  assert (boardAfter events0 position = startPosition) as Hboard0.
  { unfold events0, startPosition.
    rewrite boardAfter_app, Hstill. by destruct isValid. }
  assert (Forall (fun p => p `prefix_of` target) (goToMoves events0)) as Hmoves0.
  { unfold events0. rewrite goToMoves_app, Hquiet.
    destruct isValid; cbn; [constructor|].
    constructor; [apply prefix_nil|constructor]. }
  set (a := {| targetPosition := target;
               currentStep := length startPosition;
               animationDelay := delay |}).
  set (n := (length target - length startPosition)%nat).
  destruct (runTicks_moving getNodeAtPath root n a)
    as (events & Hrun & Hmoves & Hboard); [simpl; unfold n; lia|].
  simpl in Hrun, Hmoves, Hboard.
  exists (n + 1)%nat,
    (events ++ [ClearInterval; SetIsAnimating false; SetInvisible true]).
  split; [|split; [|split]].
  - rewrite runTicks_add. fold a. rewrite Hrun. cbn [runTicks].
    by rewrite tick_finishing by (simpl; unfold n; lia).
  - rewrite !boardAfter_app, Hboard0, Hboard. cbn.
    destruct n as [|n'] eqn:Hn.
    + rewrite <- Hstart. apply take_ge. lia.
    + apply take_ge. lia.
  - change [ClearInterval; SetIsAnimating false; SetInvisible true]
      with ([ClearInterval; SetIsAnimating false] ++ [SetInvisible true]).
    by rewrite !app_assoc, last_snoc.
  - rewrite !goToMoves_app, Hmoves. cbn. rewrite app_nil_r.
    apply Forall_app. split; [done|].
    apply Forall_fmap, Forall_forall. intros k _. apply take_prefix_of.
Qed.

Lemma immediate_plan_at_once (cleared : list UiEvent) (target position : list nat) :
  goToMoves cleared = [] →
  (∀ p, boardAfter cleared p = p) →
  boardAfter (cleared ++ [GoToMove target; SetInvisible true]) position = target
  ∧ last (cleared ++ [GoToMove target; SetInvisible true]) = Some (SetInvisible true)
  ∧ goToMoves (cleared ++ [GoToMove target; SetInvisible true]) = [target].
Proof.
  intros Hquiet Hstill. split; [|split].
  - by rewrite boardAfter_app, Hstill.
  - change [GoToMove target; SetInvisible true]
      with ([GoToMove target] ++ [SetInvisible true]).
    by rewrite app_assoc, last_snoc.
  - by rewrite goToMoves_app, Hquiet.
Qed.

Lemma animated_plan_start (cleared : list UiEvent) (target position : list nat)
    (delay : Z) :
  (∀ p, boardAfter cleared p = p) →
  let isValid := isCurrentPositionValid position target in
  let events0 :=
    cleared ++ (if isValid then [] else [GoToMove []])
      ++ [SetIsAnimating true; SetInterval delay] in
  boardAfter events0 position = (if isValid then position else [])
  ∧ last events0 = Some (SetInterval delay).
Proof.
  intros Hstill isValid events0. unfold events0. split.
  - rewrite boardAfter_app, Hstill. by destruct isValid.
  - change [SetIsAnimating true; SetInterval delay]
      with ([SetIsAnimating true] ++ [SetInterval delay]).
    by rewrite !app_assoc, last_snoc.
Qed.

(** X15.  Whenever [newPractice] finds a card to review, the board ends
    on the path the memo holds for the card's fen (the empty path when it
    holds none).  When the animation is disabled or that path is empty this
    happens at once: no interval is left, the one [goToMove] is to the
    path, and the answer is hidden last.  Otherwise an interval is started
    on that path from the board's place, or from the root when the board is
    off the path, with the delay of the speed; once it has run the board is
    on the path.  Every [goToMove] on the way is a prefix of the path, the
    interval is cleared at the end, and the last thing done is to hide the
    answer. *)
Theorem newPractice_ends_on_the_card
    (deck : PracticeData) (memo : gmap string (list nat)) (position : list nat)
    (speed : AnimationSpeed) (now : Z) (ref : option Animation) (c : Position) :
  getCardForReview (positions deck) None 0%Q now = JsValue c →
  let target := default [] (memo !! fen c) in
  ∃ events0 ref0,
    newPractice deck memo position speed now ref = (events0, ref0)
    ∧ (speed = disabled ∨ target = [] →
       ref0 = None
       ∧ boardAfter events0 position = target
       ∧ last events0 = Some (SetInvisible true)
       ∧ goToMoves events0 = [target])
    ∧ (speed ≠ disabled → target ≠ [] →
       let startPosition :=
         if isCurrentPositionValid position target then position else [] in
       ref0 = Some {| targetPosition := target;
                      currentStep := length startPosition;
                      animationDelay := default 500 (speedToDelay speed) |}
       ∧ boardAfter events0 position = startPosition
       ∧ last events0 = Some (SetInterval (default 500 (speedToDelay speed))))
    ∧ ∃ n events,
        runTicks getNodeAtPath root n ref0 = (events, None)
        ∧ boardAfter (events0 ++ events) position = target
        ∧ last (events0 ++ events) = Some (SetInvisible true)
        ∧ Forall (fun p => p `prefix_of` target) (goToMoves (events0 ++ events)).
Proof.
  intros Hsel target. unfold newPractice.
  assert ((length (positions deck) =? 0)%nat = false) as ->.
  { destruct (positions deck); [by cbv in Hsel|done]. }
  rewrite Hsel. fold target.
  set (cleared := match ref with Some _ => [ClearInterval] | None => [] end).
  assert (goToMoves cleared = []) as Hquiet by by destruct ref.
  assert (∀ p, boardAfter cleared p = p) as Hstill by by destruct ref.
  assert ((length target =? 0)%nat = true → target = []) as Hnil.
  { intros Hlen%Nat.eqb_eq. by apply nil_length_inv. }
  assert ((length target =? 0)%nat = false → target ≠ []) as Hcons.
  { intros Hlen%Nat.eqb_neq ->. by apply Hlen. }
  destruct speed; cbn [speedToDelay default];
    try (destruct (length target =? 0)%nat eqn:Hlen);
    eexists _, _; (split; [reflexivity|]);
    (split; [|split]);
    first
      [ (* the two conditional parts *)
        by (intros _; split; [done|by apply immediate_plan_at_once])
      | by (intros Hspeed; destruct Hspeed)
      | by (intros _ Hne; destruct Hne; apply Hnil)
      | by (intros [Hspeed|Hempty]; [done|by destruct (Hcons eq_refl)])
      | by (intros _ _; split; [done|by apply animated_plan_start])
        (* the run to the end *)
      | by apply immediate_plan_ends
      | by apply animated_plan_ends ].
Qed.

(** X16.  When no card is due, [newPractice] does nothing at all: no event, and
    a running animation is left running. *)
Theorem newPractice_without_due_card_does_nothing
    (deck : PracticeData) (memo : gmap string (list nat)) (position : list nat)
    (speed : AnimationSpeed) (now : Z) (ref : option Animation) :
  Forall (fun p => now < Fsrs.due (card p)) (positions deck) →
  newPractice deck memo position speed now ref = ([], ref).
Proof.
  intros Hlate. unfold newPractice.
  destruct (length (positions deck) =? 0)%nat; [done|].
  rewrite getCardForReview_deterministic_eq by done.
  assert (filter (fun p => Fsrs.due (card p) ≤ now) (positions deck) = []) as ->;
    [|done].
  apply filter_none. eapply Forall_impl; [exact Hlate|]. simpl. lia.
Qed.

End NewPractice.

(** ** Stats and selection: order and time *)

Section OrderAndTime.

Context `{engine : Fsrs.Engine}.

Lemma inBucket_Permutation now b (cards cards' : list Position) :
  cards ≡ₚ cards' → inBucket now b cards = inBucket now b cards'.
Proof. intros Hperm. unfold inBucket. by rewrite Hperm. Qed.

Lemma filter_length_mono {A} (P Q : A → Prop)
    `{∀ x, Decision (P x)} `{∀ x, Decision (Q x)} (l : list A) :
  (∀ x, P x → Q x) → (length (filter P l) ≤ length (filter Q l))%nat.
Proof.
  intros Himpl. induction l as [|x l IH]; [done|].
  rewrite !filter_cons.
  destruct (decide (P x)) as [HP|HP], (decide (Q x)) as [HQ|HQ]; simpl; try lia.
  destruct HQ. by apply Himpl.
Qed.

(** X17.  The stats do not depend on the order of the cards: a reordered deck
    has the same counts, the same total and the same [nextDue]. *)
Theorem getStats_ignores_card_order (cards cards' : list Position) (now : Z) :
  cards ≡ₚ cards' → getStats cards now = getStats cards' now.
Proof.
  intros Hperm. unfold getStats.
  pose proof (statsLoop_counts now cards
                (Stats.mk 0 0 0 None (length cards))) as (Hu & Hd & Hp & Ht).
  pose proof (statsLoop_counts now cards'
                (Stats.mk 0 0 0 None (length cards'))) as (Hu' & Hd' & Hp' & Ht').
  pose proof (statsLoop_nextDue now cards
                (Stats.mk 0 0 0 None (length cards))) as Hn.
  pose proof (statsLoop_nextDue now cards'
                (Stats.mk 0 0 0 None (length cards'))) as Hn'.
  destruct (fold_left (statsStep now) cards _) as [u d p n t].
  destruct (fold_left (statsStep now) cards' _) as [u' d' p' n' t'].
  simpl in Hu, Hd, Hp, Ht, Hu', Hd', Hp', Ht', Hn, Hn'.
  rewrite Hu, Hd, Hp, Ht, Hu', Hd', Hp', Ht'.
  rewrite (inBucket_Permutation now Unseen _ _ Hperm).
  rewrite (inBucket_Permutation now Due _ _ Hperm).
  rewrite (inBucket_Permutation now Practiced _ _ Hperm).
  rewrite (Permutation_length Hperm).
  clear Hu Hd Hp Ht Hu' Hd' Hp' Ht'. f_equal.
  destruct n as [m|], n' as [m'|]; simpl in *.
  - destruct Hn as ([?|(c & Hc & Hr & Hdue)] & _ & Hall); [done|].
    destruct Hn' as ([?|(c' & Hc' & Hr' & Hdue')] & _ & Hall'); [done|].
    rewrite Forall_forall in Hall, Hall'.
    rewrite Hperm in Hc. rewrite <- Hperm in Hc'.
    specialize (Hall c' Hc' Hr'). specialize (Hall' c Hc Hr).
    f_equal. lia.
  - destruct Hn as ([?|(c & Hc & Hr & _)] & _); [done|].
    destruct Hn' as [_ Hall']. rewrite Forall_forall in Hall'.
    rewrite Hperm in Hc. by destruct Hr; apply Hall'.
  - destruct Hn' as ([?|(c' & Hc' & Hr' & _)] & _); [done|].
    destruct Hn as [_ Hall]. rewrite Forall_forall in Hall.
    rewrite <- Hperm in Hc'. by destruct Hr'; apply Hall.
  - done.
Qed.

(** X18.  Time only makes cards due: later on, the unseen count is the same,
    the due count is no smaller, and when a card was offered for review
    before, a card is still offered. *)
Theorem later_keeps_cards_due (cards : list Position) (rnd : Q) (now now' : Z) :
  now ≤ now' →
  Stats.unseen (getStats cards now') = Stats.unseen (getStats cards now)
  ∧ (Stats.due (getStats cards now) ≤ Stats.due (getStats cards now'))%nat
  ∧ (getCardForReview cards None rnd now ≠ JsNull →
     getCardForReview cards None rnd now' ≠ JsNull).
Proof.
  intros Hlater. unfold getStats.
  pose proof (statsLoop_counts now cards
                (Stats.mk 0 0 0 None (length cards))) as (Hu & Hd & _ & _).
  pose proof (statsLoop_counts now' cards
                (Stats.mk 0 0 0 None (length cards))) as (Hu' & Hd' & _ & _).
  simpl in Hu, Hd, Hu', Hd'. rewrite Hu, Hd, Hu', Hd'. clear Hu Hd Hu' Hd'.
  split; [|split].
  - unfold inBucket. f_equal. apply list_filter_iff. intros c.
    destruct (bucketOf_cases now c) as [[Hr ->]|[(Hr & _ & ->)|(Hr & _ & ->)]];
      destruct (bucketOf_cases now' c)
        as [[Hr' ->]|[(Hr' & _ & ->)|(Hr' & _ & ->)]]; split; congruence.
  - unfold inBucket. apply filter_length_mono. intros c Hb.
    destruct (bucketOf_cases now c) as [[_ Hb']|[(Hr & Hdue & _)|(_ & _ & Hb')]];
      [congruence| |congruence].
    destruct (bucketOf_cases now' c)
      as [[Hr' _]|[(_ & _ & ->)|(_ & Hdue' & _)]]; [congruence|done|].
    apply Z.leb_le in Hdue. apply Z.leb_gt in Hdue'. lia.
  - rewrite !getCardForReview_deterministic_eq by done.
    destruct (filter (fun p => Fsrs.due (card p) ≤ now) cards) as [|c rest] eqn:Hf;
      [done|]. intros _.
    destruct (filter (fun p => Fsrs.due (card p) ≤ now') cards) eqn:Hf'; [|done].
    apply (filter_none (fun p => Fsrs.due (card p) ≤ now')) in Hf'.
    rewrite Forall_forall in Hf'.
    assert (c ∈ filter (fun p => Fsrs.due (card p) ≤ now) cards) as Hc
      by (rewrite Hf; by left).
    apply list_elem_of_filter in Hc as [Hdue Hc].
    destruct (Hf' c Hc). lia.
Qed.

End OrderAndTime.

(** ** The further properties on sample data *)

Lemma getStats_nextDue_is_earliest_reviewed_witness :
  ∃ c, c ∈ [cardDueAt50; cardDueAt10]
    ∧ Fsrs.reps (card c) ≠ 0%N ∧ Fsrs.due (card c) = 10.
Proof.
  exact (proj1 (getStats_nextDue_is_earliest_reviewed
                  [cardDueAt50; cardDueAt10] 100)).
Defined.

(** At time 5 both sample cards are practiced and not yet due. *)
Lemma nextDisabled_means_no_card_for_review_witness :
  nextDisabled (getStats [cardDueAt50; cardDueAt10] 5) = true
  ∧ getCardForReview [cardDueAt50; cardDueAt10] None 0%Q 5 = JsNull.
Proof.
  split; [reflexivity|].
  apply (proj1 (nextDisabled_means_no_card_for_review
                  [cardDueAt50; cardDueAt10] 0%Q 5)).
  reflexivity.
Defined.

Lemma getCardForReview_random_picks_a_card_witness :
  [cardDueAt50; cardDueAt10] ≠ [] ∧ (0 <= 3 # 4)%Q ∧ (3 # 4 < 1)%Q
  ∧ ∃ c, c ∈ [cardDueAt50; cardDueAt10]
      ∧ getCardForReview [cardDueAt50; cardDueAt10]
          (Some {| random := true |}) (3 # 4) 100 = JsValue c.
Proof.
  assert ([cardDueAt50; cardDueAt10] ≠ []) as Hne by congruence.
  assert (0 <= 3 # 4)%Q as Hlo by (unfold Qle; simpl; lia).
  assert (3 # 4 < 1)%Q as Hhi by (unfold Qlt; simpl; lia).
  split; [exact Hne|]. split; [exact Hlo|]. split; [exact Hhi|].
  exact (getCardForReview_random_picks_a_card _ (3 # 4) 100 Hne Hlo Hhi).
Defined.

(** The node after [e4 e5] of [sampleTree] for a white deck. *)
Lemma buildFromTree_covers_every_eligible_node_witness :
  ∃ item, sampleItems !! 2%nat = Some item
    ∧ TreeReducer.fen (TreeReducer.node item)
      ∈ fen <$> buildFromTree (engine := dayEngine) (clockAt 1000) sampleTree white [].
Proof.
  eexists. split; [reflexivity|].
  apply buildFromTree_covers_every_eligible_node;
    [|by vm_compute|reflexivity|reflexivity|reflexivity].
  apply (list_elem_of_lookup_2 _ 2%nat). reflexivity.
Defined.

Lemma updateCardPerformance_keeps_faces_and_appends_witness :
  ∃ st', updateCardPerformance setDeck 1 (card cardDueAt10) 4 100 sampleStore = Ok st'
    ∧ faces (positions (current st')) = faces (positions (current sampleStore)).
Proof.
  eexists. split; [vm_compute; reflexivity|].
  apply (updateCardPerformance_keeps_faces_and_appends
           sampleStore _ 1 (card cardDueAt10) 4 100).
  reflexivity.
Defined.

(** The store after the first seeding of [sampleTree]. *)
Lemma reachable_deck_is_consistent_witness :
  ∃ st, seedEffect (engine := dayEngine) setDeck (clockAt 1000) sampleTree noHeaders
          {| current := {| positions := []; logs := [] |}; past := [] |} = Ok st
    ∧ reachable st
    ∧ NoDup (fen <$> positions (current st)).
Proof.
  eexists. split; [vm_compute; reflexivity|].
  assert (reachable (engine := dayEngine)
            (publish {| positions := buildFromTree (clockAt 1000) sampleTree white [];
                        logs := [] |}
               {| current := {| positions := []; logs := [] |}; past := [] |}))
    as Hreach.
  { eapply reachable_seed; [apply reachable_created|].
    instantiate (1 := noHeaders). instantiate (1 := sampleTree).
    instantiate (1 := clockAt 1000). reflexivity. }
  split; [exact Hreach|].
  exact (proj1 (reachable_deck_is_consistent _ Hreach)).
Defined.

Lemma animation_walks_to_the_target_witness :
  (currentStep sampleAnimation ≤ length (targetPosition sampleAnimation))%nat
  ∧ ∃ events,
      runTicks noNodeAtPath sampleTree 3 (Some sampleAnimation)
      = (events ++ [ClearInterval; SetIsAnimating false; SetInvisible true], None)
      ∧ boardAfter events [0%nat] = [0%nat; 0%nat; 1%nat].
Proof.
  split; [simpl; lia|].
  destruct (animation_walks_to_the_target noNodeAtPath sampleTree
              sampleAnimation [0%nat]) as (events & Hrun & _ & Hboard);
    [simpl; lia|reflexivity|].
  exists events. split; [exact Hrun|exact Hboard].
Defined.

(** The board is elsewhere ([1]) when the first sample card comes up: at
    speed [normal] an interval is started from the root, with animation
    disabled the board jumps. *)
Lemma newPractice_ends_on_the_card_witness :
  getCardForReview (positions sampleDeck) None 0%Q 100 = JsValue cardDueAt50
  ∧ (∃ events0 n events,
       newPractice sampleDeck sampleMemo [1%nat] normal 100 None
       = (events0, Some {| targetPosition := [0%nat; 0%nat];
                           currentStep := 0;
                           animationDelay := 500 |})
       ∧ boardAfter events0 [1%nat] = []
       ∧ runTicks noNodeAtPath sampleTree n
           (Some {| targetPosition := [0%nat; 0%nat];
                    currentStep := 0;
                    animationDelay := 500 |}) = (events, None)
       ∧ boardAfter (events0 ++ events) [1%nat] = [0%nat; 0%nat])
  ∧ (∃ events0,
       newPractice sampleDeck sampleMemo [1%nat] disabled 100 None = (events0, None)
       ∧ boardAfter events0 [1%nat] = [0%nat; 0%nat]).
Proof.
  assert (getCardForReview (positions sampleDeck) None 0%Q 100 = JsValue cardDueAt50)
    as Hsel by reflexivity.
  split; [exact Hsel|]. split.
  - destruct (newPractice_ends_on_the_card noNodeAtPath sampleTree
                sampleDeck sampleMemo [1%nat] normal 100 None cardDueAt50 Hsel)
      as (events0 & ref0 & Hplan & _ & Hanimated & n & events & Hrun & Hboard & _).
    destruct Hanimated as (-> & Hstart & _); [done|done|].
    exists events0, n, events.
    split; [exact Hplan|]. split; [exact Hstart|]. split; [exact Hrun|exact Hboard].
  - destruct (newPractice_ends_on_the_card noNodeAtPath sampleTree
                sampleDeck sampleMemo [1%nat] disabled 100 None cardDueAt50 Hsel)
      as (events0 & ref0 & Hplan & Hatonce & _).
    destruct Hatonce as (-> & Hboard & _); [by left|].
    exists events0. split; [exact Hplan|exact Hboard].
Defined.

Lemma newPractice_without_due_card_does_nothing_witness :
  Forall (fun p => 5 < Fsrs.due (card p)) (positions sampleDeck)
  ∧ newPractice sampleDeck sampleMemo [1%nat] normal 5 (Some sampleAnimation)
    = ([], Some sampleAnimation).
Proof.
  assert (Forall (fun p => 5 < Fsrs.due (card p)) (positions sampleDeck)) as Hlate.
  { repeat constructor; simpl; lia. }
  split; [exact Hlate|].
  by apply newPractice_without_due_card_does_nothing.
Defined.

Lemma getStats_ignores_card_order_witness :
  [cardDueAt50; cardDueAt10] ≡ₚ [cardDueAt10; cardDueAt50]
  ∧ getStats [cardDueAt50; cardDueAt10] 20 = getStats [cardDueAt10; cardDueAt50] 20.
Proof.
  assert ([cardDueAt50; cardDueAt10] ≡ₚ [cardDueAt10; cardDueAt50]) as Hperm
    by apply Permutation_swap.
  split; [exact Hperm|].
  exact (getStats_ignores_card_order _ _ 20 Hperm).
Defined.

Lemma later_keeps_cards_due_witness :
  20 ≤ 60
  ∧ (Stats.due (getStats [cardDueAt50; cardDueAt10] 20)
     ≤ Stats.due (getStats [cardDueAt50; cardDueAt10] 60))%nat.
Proof.
  assert (20 ≤ 60) as Hlater by lia.
  split; [exact Hlater|].
  exact (proj1 (proj2 (later_keeps_cards_due [cardDueAt50; cardDueAt10] 0%Q
                         20 60 Hlater))).
Defined.
